(** * dsan-sanitize-piiremover: the redaction pass of [main.py]

    A shallow embedding of [sanitize_text] and of the part of Python's [re]
    module it calls ([re.sub] with a string replacement on four fixed
    patterns), followed by the properties of the redaction engine.

    Text is a list of characters.  A character is an 8-bit code point, read as
    the Unicode code point of the same number (U+0000 to U+00FF); the
    classifications [\d], [\s] and [\w] below are those of Python's [str]
    patterns on that range. *)

From Stdlib Require Import Ascii String List Bool Arith NArith Lia.
Import ListNotations.

Set Implicit Arguments.

(** ** Characters and text *)

Definition char := ascii.
Definition str := list char.

Definition txt (s : string) : str := list_ascii_of_string s.

Definition code (c : char) : N := N_of_ascii c.

Definition between (lo hi : N) (c : char) : bool :=
  ((lo <=? code c) && (code c <=? hi))%N.

(** [\d] on a [str] pattern: the decimal digits. *)
Definition is_digit (c : char) : bool := between 48 57 c.

(** [\s] on a [str] pattern: [str.isspace], which below U+0100 is
    tab to carriage return, the four separators U+001C to U+001F, the space,
    U+0085 and U+00A0. *)
Definition is_space (c : char) : bool :=
  between 9 13 c || between 28 31 c || (code c =? 32)%N
  || (code c =? 133)%N || (code c =? 160)%N.

(** [\w] on a [str] pattern: [str.isalnum] or the underscore. *)
Definition is_word (c : char) : bool :=
  between 48 57 c || between 65 90 c || between 97 122 c || (code c =? 95)%N
  || (code c =? 170)%N || (code c =? 178)%N || (code c =? 179)%N
  || (code c =? 181)%N || (code c =? 185)%N || (code c =? 186)%N
  || between 188 190 c || between 192 214 c || between 216 246 c
  || between 248 255 c.

(** ** Patterns *)

(** The members of a bracketed character set. *)
Inductive citem : Type :=
| Lit (c : char)
| Range (lo hi : char)
| Digit
| Space.

Definition in_item (it : citem) (c : char) : bool :=
  match it with
  | Lit a => (code c =? code a)%N
  | Range lo hi => between (code lo) (code hi) c
  | Digit => is_digit c
  | Space => is_space c
  end.

Definition in_class (cls : list citem) (c : char) : bool :=
  existsb (fun it => in_item it c) cls.

(** The fragment of the pattern language the four detectors are written in:
    one character of a set, the word boundary [\b], concatenation, and a
    counted repetition [{lo,hi}] that is greedy or lazy ([hi = None] is an
    open upper bound). *)
Inductive regex : Type :=
| Chr (cls : list citem)
| WordB
| Cat (r1 r2 : regex)
| Rep (greedy : bool) (lo : nat) (hi : option nat) (r : regex).

(** a sequence of patterns (the empty sequence matches the empty text) *)
Fixpoint seq (rs : list regex) : regex :=
  match rs with
  | [] => Rep true 0 (Some 0) WordB
  | [r] => r
  | r :: rs' => Cat r (seq rs')
  end.

Definition exactly (n : nat) (r : regex) : regex := Rep true n (Some n) r.
Definition opt (r : regex) : regex := Rep true 0 (Some 1) r.
Definition plus (r : regex) : regex := Rep true 1 None r.
Definition star (r : regex) : regex := Rep true 0 None r.
Definition lazy_star (r : regex) : regex := Rep false 0 None r.
Definition at_least (n : nat) (r : regex) : regex := Rep true n None r.

(** [\b ... \b] *)
Definition anchor (body : regex) : regex := Cat WordB (Cat body WordB).

Definition ch (s : string) : citem :=
  match s with
  | String c _ => Lit c
  | EmptyString => Lit zero
  end.

Definition rg (s : string) : citem :=
  match s with
  | String lo (String _ (String hi _)) => Range lo hi
  | _ => Lit zero
  end.

Definition digit : regex := Chr [Digit].

(** [\d{3}-\d{2}-\d{4}] *)
Definition ssn_body : regex :=
  seq [exactly 3 digit; Chr [ch "-"]; exactly 2 digit; Chr [ch "-"];
       exactly 4 digit].

(** [(?: \+ \d{1,3} \s* )? \(? \d{3} \)? [-.\s]? \d{3} [-.\s]? \d{4}],
    written here with blanks between its parts *)
Definition phone_body : regex :=
  seq [opt (seq [Chr [ch "+"]; Rep true 1 (Some 3) digit;
                 star (Chr [Space])]);
       opt (Chr [ch "("]); exactly 3 digit; opt (Chr [ch ")"]);
       opt (Chr [ch "-"; ch "."; Space]); exactly 3 digit;
       opt (Chr [ch "-"; ch "."; Space]); exactly 4 digit].

(** [[A-Za-z0-9._%+-]+ @ [A-Za-z0-9.-]+ \. [A-Z|a-z]{2,}] *)
Definition email_body : regex :=
  seq [plus (Chr [rg "A-Z"; rg "a-z"; rg "0-9"; ch "."; ch "_"; ch "%";
                  ch "+"; ch "-"]);
       Chr [ch "@"];
       plus (Chr [rg "A-Z"; rg "a-z"; rg "0-9"; ch "."; ch "-"]);
       Chr [ch "."];
       at_least 2 (Chr [rg "A-Z"; ch "|"; rg "a-z"])].

(** [(?: \d [ -]*? ){13,16}] *)
Definition credit_card_body : regex :=
  Rep true 13 (Some 16) (Cat digit (lazy_star (Chr [ch " "; ch "-"]))).

Definition ssn_re : regex := anchor ssn_body.
Definition phone_re : regex := anchor phone_body.
Definition email_re : regex := anchor email_body.
Definition credit_card_re : regex := anchor credit_card_body.

(** ** The backtracking matcher

    A position in the text is the character before it (if any) and the text
    from it on.  The matcher is written in continuation-passing style: the
    continuation is what remains of the pattern, and the first success in
    the order the alternatives are tried is the match, as in [re]. *)

Definition is_word_at (o : option char) : bool :=
  match o with
  | Some c => is_word c
  | None => false
  end.

Definition at_boundary (p : option char) (s : str) : bool :=
  xorb (is_word_at p) (is_word_at (hd_error s)).

Section Backtrack.
Variable A : Type.

Definition cont : Type := option char -> str -> option A.
Definition matcher : Type := option char -> str -> cont -> option A.

Section Loops.
Variable m : matcher.

(** [n] iterations that must all succeed *)
Fixpoint times (n : nat) (p : option char) (s : str) (k : cont)
  : option A :=
  match n with
  | 0 => k p s
  | S n' => m p s (fun p' s' => times n' p' s' k)
  end.

(** at most [n] further iterations: a greedy loop tries one more
    iteration before it tries to leave, a lazy one the other way round *)
Fixpoint upto (greedy : bool) (n : nat) (p : option char) (s : str)
  (k : cont) : option A :=
  match n with
  | 0 => k p s
  | S n' =>
      if greedy then
        match m p s (fun p' s' => upto greedy n' p' s' k) with
        | Some a => Some a
        | None => k p s
        end
      else
        match k p s with
        | Some a => Some a
        | None => m p s (fun p' s' => upto greedy n' p' s' k)
        end
  end.
End Loops.

(** The optional iterations left after [lo] mandatory ones.  Every
    repeated body of the four patterns consumes a character, so an open
    bound never needs more iterations than there are characters left. *)
Definition extra (lo : nat) (hi : option nat) (s : str) : nat :=
  match hi with
  | Some h => h - lo
  | None => length s
  end.

Fixpoint bt (r : regex) : matcher :=
  fun p s k =>
    match r with
    | Chr cls =>
        match s with
        | c :: s' => if in_class cls c then k (Some c) s' else None
        | [] => None
        end
    | WordB => if at_boundary p s then k p s else None
    | Cat r1 r2 => bt r1 p s (fun p' s' => bt r2 p' s' k)
    | Rep g lo hi r1 =>
        times (bt r1) lo p s
          (fun p' s' => upto (bt r1) g (extra lo hi s') p' s' k)
    end.
End Backtrack.

(** The length of the match of [r] at a position, if there is one.  With
    [must_advance] set an empty match is refused (the flag [re] sets for the
    search that follows an empty match). *)
Definition match_at (r : regex) (p : option char) (s : str)
  (must_advance : bool) : option nat :=
  bt r p s
    (fun _ s' =>
       let n := length s - length s' in
       if must_advance && (n =? 0) then None else Some n).

(** ** Scanning: [re.sub]'s split of the text into matches and the rest *)

Inductive piece : Type :=
| Keep (c : char)
| Hit (m : str).

(** [scan r p s skip]: the text [s], preceded by [p], of which the first
    [skip] characters belong to the match found last. *)
Fixpoint scan (r : regex) (p : option char) (s : str) (skip : nat)
  {struct s} : list piece :=
  match skip with
  | S k =>
      match s with
      | c :: s' => scan r (Some c) s' k
      | [] => []
      end
  | 0 =>
      match match_at r p s false with
      | None =>
          match s with
          | c :: s' => Keep c :: scan r (Some c) s' 0
          | [] => []
          end
      | Some (S k) =>
          Hit (firstn (S k) s)
            :: match s with
               | c :: s' => scan r (Some c) s' k
               | [] => []
               end
      | Some 0 =>
          Hit []
            :: match match_at r p s true with
               | Some (S k) =>
                   Hit (firstn (S k) s)
                     :: match s with
                        | c :: s' => scan r (Some c) s' k
                        | [] => []
                        end
               | _ =>
                   match s with
                   | c :: s' => Keep c :: scan r (Some c) s' 0
                   | [] => []
                   end
               end
      end
  end.

(** ** Replacement templates *)

(** A replacement string compiles to literal text and references to the
    whole match ([\g<0>]); the four patterns have no group of their own. *)
Inductive part : Type :=
| Literal (l : str)
| Group0.

Definition template : Type := list part.

Inductive result (A : Type) : Type :=
| Ok (a : A)
| Raise.
Arguments Ok {A} a.
Arguments Raise {A}.

Definition bind {A B : Type} (x : result A) (f : A -> result B) : result B :=
  match x with
  | Ok a => f a
  | Raise => Raise
  end.

Notation "x <- e1 ;; e2" := (bind e1 (fun x => e2))
  (at level 61, e1 at next level, right associativity).

Definition backslash : char := ascii_of_nat 92.

Definition is_backslash (c : char) : bool := (code c =? 92)%N.

Definition is_octdigit (c : char) : bool := between 48 55 c.

Definition is_ascii_letter (c : char) : bool :=
  between 65 90 c || between 97 122 c.

Definition digit_val (c : char) : N := (code c - 48)%N.

(** The one-letter escapes of a template: [\a \b \f \n \r \t \v]. *)
Definition escape_of (c : char) : option char :=
  match code c with
  | 97%N => Some (ascii_of_nat 7)
  | 98%N => Some (ascii_of_nat 8)
  | 102%N => Some (ascii_of_nat 12)
  | 110%N => Some (ascii_of_nat 10)
  | 114%N => Some (ascii_of_nat 13)
  | 116%N => Some (ascii_of_nat 9)
  | 118%N => Some (ascii_of_nat 11)
  | 92%N => Some backslash
  | _ => None
  end.

Definition lit1 (c : char) (k : result template) : result template :=
  t <- k ;; Ok (Literal [c] :: t).

(** [parse_template] of [re._parser] for a pattern without groups.  A group
    number is a name of ASCII decimal digits, as from CPython 3.12 on;
    earlier versions read the name with [int] and so take a few more
    spellings of zero, a signed one among them, with a deprecation warning.
    [in_name] is set while the name of a [\g<...>] reference is read, and
    holds whether a character of it has been seen; only a name made of zeros
    refers to a group that exists, the whole match.  The kind of the
    exception raised is not kept. *)
Fixpoint parse_template (in_name : option bool) (s : str)
  : result template :=
  match in_name with
  | Some seen =>
      match s with
      | [] => Raise
      | c :: s' =>
          if (code c =? 62)%N then
            if seen then t <- parse_template None s' ;; Ok (Group0 :: t)
            else Raise
          else if (code c =? 48)%N then parse_template (Some true) s'
          else Raise
      end
  | None =>
      match s with
      | [] => Ok []
      | c :: s' =>
          if negb (is_backslash c) then lit1 c (parse_template None s')
          else
            match s' with
            | [] => Raise
            | e :: s2 =>
                if (code e =? 103)%N then
                  match s2 with
                  | lt :: s3 =>
                      if (code lt =? 60)%N then parse_template (Some false) s3
                      else Raise
                  | [] => Raise
                  end
                else if (code e =? 48)%N then
                  match s2 with
                  | o1 :: s3 =>
                      if is_octdigit o1 then
                        match s3 with
                        | o2 :: s4 =>
                            if is_octdigit o2 then
                              lit1 (ascii_of_N (digit_val o1 * 8 + digit_val o2))
                                (parse_template None s4)
                            else
                              lit1 (ascii_of_N (digit_val o1))
                                (parse_template None s3)
                        | [] => Ok [Literal [ascii_of_N (digit_val o1)]]
                        end
                      else lit1 zero (parse_template None s2)
                  | [] => Ok [Literal [zero]]
                  end
                else if is_digit e then
                  match s2 with
                  | d2 :: d3 :: s4 =>
                      if is_octdigit e && is_octdigit d2 && is_octdigit d3 then
                        let v := (digit_val e * 64 + digit_val d2 * 8
                                  + digit_val d3)%N in
                        if (255 <? v)%N then Raise
                        else lit1 (ascii_of_N v) (parse_template None s4)
                      else Raise
                  | _ => Raise
                  end
                else
                  match escape_of e with
                  | Some x => lit1 x (parse_template None s2)
                  | None =>
                      if is_ascii_letter e then Raise
                      else
                        t <- parse_template None s2 ;;
                        Ok (Literal [c; e] :: t)
                  end
            end
      end
  end.

(** A replacement without a backslash is used as it is; any other is
    compiled first, before the text is looked at. *)
Definition compile_repl (repl : str) : result template :=
  if existsb is_backslash repl then parse_template None repl
  else Ok [Literal repl].

Definition expand (t : template) (m : str) : str :=
  concat (map (fun x => match x with Literal l => l | Group0 => m end) t).

Definition render_piece (t : template) (x : piece) : str :=
  match x with
  | Keep c => [c]
  | Hit m => expand t m
  end.

Definition render (t : template) (ps : list piece) : str :=
  concat (map (render_piece t) ps).

Definition is_hit (x : piece) : bool :=
  match x with
  | Hit _ => true
  | Keep _ => false
  end.

Definition hits (ps : list piece) : nat := length (filter is_hit ps).

(** [re.subn(pattern, repl, text)]: the new text and the number of
    replacements; [re.sub] is its first component. *)
Definition re_subn (r : regex) (repl : str) (text : str)
  : result (str * nat) :=
  t <- compile_repl repl ;;
  let ps := scan r None text 0 in
  Ok (render t ps, hits ps).

Definition re_sub (r : regex) (repl : str) (text : str) : result str :=
  t <- compile_repl repl ;;
  Ok (render t (scan r None text 0)).

(** ** Configuration and [sanitize_text] *)

Record SanitizeConfig : Type := mkConfig {
  input_file : string;
  output_file : string;
  redact_char : str;
  remove_ssn : bool;
  remove_phone : bool;
  remove_email : bool;
  remove_credit_card : bool
}.

Definition sanitize_text (text : str) (config : SanitizeConfig)
  : result str :=
  text <- (if remove_ssn config
           then re_sub ssn_re (redact_char config) text
           else Ok text) ;;
  text <- (if remove_phone config
           then re_sub phone_re (redact_char config) text
           else Ok text) ;;
  text <- (if remove_email config
           then re_sub email_re (redact_char config) text
           else Ok text) ;;
  text <- (if remove_credit_card config
           then re_sub credit_card_re (redact_char config) text
           else Ok text) ;;
  Ok text.

Definition default_config : SanitizeConfig :=
  mkConfig "input.txt" "output.txt" (txt "<REDACTED>") true true true true.

(** ** What a pattern matches, stated apart from the search order

    [Mt r p s post]: the pattern [r] matches the characters [s] when [p] is
    the character before them and [post] the text after them. *)

Fixpoint after (p : option char) (s : str) : option char :=
  match s with
  | [] => p
  | c :: s' => after (Some c) s'
  end.

Section Iterate.
Variable M : option char -> str -> str -> Prop.

Fixpoint iterM (n : nat) (p : option char) (s post : str) : Prop :=
  match n with
  | 0 => s = []
  | S n' =>
      exists s1 s2, s = s1 ++ s2 /\ M p s1 (s2 ++ post)
                    /\ iterM n' (after p s1) s2 post
  end.
End Iterate.

Fixpoint Mt (r : regex) (p : option char) (s post : str) : Prop :=
  match r with
  | Chr cls => exists c, s = [c] /\ in_class cls c = true
  | WordB => s = [] /\ at_boundary p post = true
  | Cat r1 r2 =>
      exists s1 s2, s = s1 ++ s2 /\ Mt r1 p s1 (s2 ++ post)
                    /\ Mt r2 (after p s1) s2 post
  | Rep _ lo hi r1 =>
      exists n, lo <= n
                /\ match hi with Some h => n <= h | None => True end
                /\ iterM (Mt r1) n p s post
  end.

(** every match of the pattern has a character *)
Fixpoint nonnull (r : regex) : bool :=
  match r with
  | Chr _ => true
  | WordB => false
  | Cat r1 r2 => nonnull r1 || nonnull r2
  | Rep _ lo _ r1 => (0 <? lo) && nonnull r1
  end.

(** the bounds of every repetition are in order, and an open repetition
    has a body that consumes a character *)
Fixpoint wf (r : regex) : bool :=
  match r with
  | Chr _ => true
  | WordB => true
  | Cat r1 r2 => wf r1 && wf r2
  | Rep _ lo hi r1 =>
      wf r1 && match hi with Some h => lo <=? h | None => nonnull r1 end
  end.

(** the pattern has a set that accepts [c] *)
Fixpoint uses (r : regex) (c : char) : bool :=
  match r with
  | Chr cls => in_class cls c
  | WordB => false
  | Cat r1 r2 => uses r1 c || uses r2 c
  | Rep _ _ _ r1 => uses r1 c
  end.

(** the pattern has no [\b] *)
Fixpoint nowb (r : regex) : bool :=
  match r with
  | Chr _ => true
  | WordB => false
  | Cat r1 r2 => nowb r1 && nowb r2
  | Rep _ _ _ r1 => nowb r1
  end.

(** a detector body: what stands between the two [\b] *)
Definition body_ok (b : regex) : bool := wf b && nonnull b && nowb b.

(** no match of [r] starts at a character of [seg], which is followed by
    [rest] and preceded by [p] *)
Definition quiet (r : regex) (p : option char) (seg rest : str) : Prop :=
  forall a b, seg = a ++ b -> b <> [] ->
              match_at r (after p a) (b ++ rest) false = None.

(** [r] matches nowhere in [t] *)
Definition free (r : regex) (p : option char) (t : str) : Prop :=
  forall a s post, t = a ++ s ++ post -> ~ Mt r (after p a) s post.

(** whether the search finds a match of [r] somewhere in the text *)
Fixpoint occurs (r : regex) (p : option char) (s : str) : bool :=
  match match_at r p s false with
  | Some _ => true
  | None =>
      match s with
      | [] => false
      | c :: s' => occurs r (Some c) s'
      end
  end.

Definition detectors : list regex :=
  [ssn_body; phone_body; email_body; credit_card_body].

(** no detector has a set that accepts [c] *)
Definition unused (c : char) : bool :=
  forallb (fun b => negb (uses b c)) detectors.

(** A marker that is taken literally, begins and ends with characters no
    detector accepts, and in which no detector finds a match. *)
Definition inert_marker (m : str) : bool :=
  negb (existsb is_backslash m)
  && match hd_error m, after None m with
     | Some h, Some z => unused h && unused z
     | _, _ => false
     end
  && forallb (fun b => negb (occurs (anchor b) None m)) detectors.

(** ** The passes, as the specification words them *)

Inductive category : Type := SSN | PHONE | EMAIL | CREDIT_CARD.

Definition body_of (c : category) : regex :=
  match c with
  | SSN => ssn_body
  | PHONE => phone_body
  | EMAIL => email_body
  | CREDIT_CARD => credit_card_body
  end.

Definition pattern (c : category) : regex := anchor (body_of c).

Definition enabled (config : SanitizeConfig) (c : category) : bool :=
  match c with
  | SSN => remove_ssn config
  | PHONE => remove_phone config
  | EMAIL => remove_email config
  | CREDIT_CARD => remove_credit_card config
  end.



(** the pass of [r] with the marker [m] taken literally *)
Definition lit_sub (r : regex) (m : str) (t : str) : str :=
  render [Literal m] (scan r None t 0).

Definition lit_pass (en : bool) (b : regex) (m : str) (t : str) : str :=
  if en then lit_sub (anchor b) m t else t.

(** whether some detector finds a match in the text: the specification's
    "PII-shaped" *)
Definition pii_shaped (t : str) : bool :=
  existsb (fun b => occurs (anchor b) None t) detectors.

(** The specification's result of a run: the output text and, per category,
    the number of matches replaced.  [sanitize_with_counts] is the run as
    the specification words it, with [re.subn] in the place of [re.sub]; a
    disabled category counts no match. *)
Record SanitizationResult : Type := mkResult {
  outputText : str;
  matchCounts : list (category * nat)
}.

Definition counted_pass (config : SanitizeConfig) (c : category)
  (acc : SanitizationResult) : result SanitizationResult :=
  if enabled config c then
    x <- re_subn (pattern c) (redact_char config) (outputText acc) ;;
    Ok (mkResult (fst x) (matchCounts acc ++ [(c, snd x)]))
  else Ok (mkResult (outputText acc) (matchCounts acc ++ [(c, 0)])).

Definition sanitize_with_counts (text : str) (config : SanitizeConfig)
  : result SanitizationResult :=
  fold_left (fun acc c => a <- acc ;; counted_pass config c a)
    [SSN; PHONE; EMAIL; CREDIT_CARD] (Ok (mkResult text [])).

Definition map_result {A B : Type} (f : A -> B) (x : result A) : result B :=
  match x with
  | Ok a => Ok (f a)
  | Raise => Raise
  end.

(** the text the pieces of a scan were cut from *)
Definition unscan (ps : list piece) : str :=
  concat (map (fun x => match x with Keep c => [c] | Hit m => m end) ps).

(** ** Replacing every match, stated apart from the scan

    [replace_all r repl p t out]: [out] is the text [t] (preceded by [p]) in
    which every match of [r], taken from left to right, is replaced by what
    [repl] makes of it.  Either [r] matches nowhere in [t], or [t] is a
    segment [seg] in which no match of [r] starts, then a match [mt] of [r]
    that is not empty, then a rest that is treated the same way from the end
    of [mt] on. *)
Inductive replace_all (r : regex) (repl : str -> str)
  : option char -> str -> str -> Prop :=
| ra_done p t : free r p t -> replace_all r repl p t t
| ra_hit p seg mt rest out :
    (forall a b s post,
        seg = a ++ b -> b <> [] -> b ++ mt ++ rest = s ++ post ->
        ~ Mt r (after p a) s post) ->
    mt <> [] ->
    Mt r (after p seg) mt rest ->
    replace_all r repl (after p (seg ++ mt)) rest out ->
    replace_all r repl p (seg ++ mt ++ rest) (seg ++ repl mt ++ out).


(** a pass with the empty marker: every match deleted when enabled *)
Definition pass_deletes (en : bool) (r : regex) (t t' : str) : Prop :=
  if en then replace_all r (fun _ => []) None t t' else t' = t.

(** ** Digit runs next to a letter *)

(** an alphanumeric character (or "_") that is not a digit *)
Definition letter (c : char) : bool := is_word c && negb (is_digit c).

(** the text between [pre] and [post] stands next to a letter: one ends
    [pre] or one begins [post] *)
Definition adjacent_to_letter (pre post : str) : Prop :=
  (exists c, after None pre = Some c /\ letter c = true)
  \/ (exists c, hd_error post = Some c /\ letter c = true).

(** ** The shape of a card number *)

Definition is_sep (c : char) : bool := (code c =? 32)%N || (code c =? 45)%N.

Definition count_digits (s : str) : nat := length (filter is_digit s).

(** [n] digits, each followed by any number of spaces and hyphens *)
Fixpoint card_groups (n : nat) (s : str) : Prop :=
  match n with
  | 0 => s = []
  | S n' =>
      exists c seps rest,
        s = c :: seps ++ rest /\ is_digit c = true
        /\ Forall (fun x => is_sep x = true) seps /\ card_groups n' rest
  end.

(** Twelve such groups and then one to four digits: a span of 13 to 16
    digits that begins and ends with a digit, with any number of spaces and
    hyphens behind each of its first twelve digits and none behind a later
    one. *)
Definition card_span (s : str) : Prop :=
  exists head tail,
    s = head ++ tail /\ card_groups 12 head
    /\ Forall (fun c => is_digit c = true) tail /\ 1 <= length tail <= 4.

(** splits off the first digit of a text, with the separators behind it *)
Ltac card_group seps :=
  eexists _, seps, _;
  split; [reflexivity|]; split; [reflexivity|]; split; [repeat constructor|].

(** [[ -]] and [\d[ -]*?], the parts of the credit-card pattern *)
Definition card_sep : regex := Chr [ch " "; ch "-"].
Definition card_item : regex := Cat digit (lazy_star card_sep).

(** ** Construction of the configuration

    [SanitizeConfig(...)] runs the two validators; [fs] is what
    [os.path.exists] answers.  A missing input file is an error; an existing
    output file is only logged. *)
Definition filesystem : Type := string -> bool.

Inductive log_record : Type :=
| Warning_output_exists (path : string).

Definition input_file_exists (fs : filesystem) (v : string) : result string :=
  if fs v then Ok v else Raise.

Definition output_file_does_not_exist (fs : filesystem) (v : string)
  : string * list log_record :=
  (v, if fs v then [Warning_output_exists v] else []).

Definition new_SanitizeConfig (fs : filesystem) (data : SanitizeConfig)
  : result SanitizeConfig * list log_record :=
  let i := input_file_exists fs (input_file data) in
  let o := output_file_does_not_exist fs (output_file data) in
  (v <- i ;;
   Ok (mkConfig v (fst o) (redact_char data) (remove_ssn data)
         (remove_phone data) (remove_email data) (remove_credit_card data)),
   snd o).

(** ** Characters a pattern cannot do without *)

Definition all_chars : list char := map ascii_of_nat (List.seq 0 256).

(** every match of the pattern has a character with [P] *)
Fixpoint demands (P : char -> bool) (r : regex) : bool :=
  match r with
  | Chr cls => forallb (fun c => implb (in_class cls c) (P c)) all_chars
  | WordB => false
  | Cat r1 r2 => demands P r1 || demands P r2
  | Rep _ lo _ r1 => (0 <? lo) && demands P r1
  end.

(** a number of characters with [P] that every match of the pattern has *)
Fixpoint least (P : char -> bool) (r : regex) : nat :=
  match r with
  | Chr cls =>
      if forallb (fun c => implb (in_class cls c) (P c)) all_chars
      then 1 else 0
  | WordB => 0
  | Cat r1 r2 => least P r1 + least P r2
  | Rep _ lo _ r1 => lo * least P r1
  end.

Definition is_at (c : char) : bool := (code c =? 64)%N.
Definition is_hyphen (c : char) : bool := (code c =? 45)%N.

(** [ddd-dd-dddd] *)
Definition is_ssn (s : str) : bool :=
  match s with
  | [a; b; c; x; e; f; y; g; h; i; j] =>
      is_digit a && is_digit b && is_digit c && is_hyphen x
      && is_digit e && is_digit f && is_hyphen y
      && is_digit g && is_digit h && is_digit i && is_digit j
  | _ => false
  end.

(** ** [main]

    A run of the tool.  [main] first calls [setup_argparse], which hands the
    command line to [argparse]: it returns the parsed arguments, or it
    leaves through [SystemExit] (status 2 after a usage message for a
    command line it refuses, status 0 after the help text of [-h]), or it
    raises an exception.  [SystemExit] is not an [Exception], so no handler
    of [main] catches it, neither the one of [setup_argparse] nor those of
    the [sys.exit(1)] calls of [main] itself; an exception is caught by the
    outermost handler.

    The file system is a state [W] with the three operations [main] uses:
    [os.path.exists], reading a whole file as text, and opening a file for
    writing and writing a text to it (which may change the file even when it
    fails).  Of the log only the records of level WARNING and ERROR and the
    closing INFO record are kept. *)
Inductive parsed : Type :=
| Parsed (args : SanitizeConfig)
| ParseExit (status : nat)
| ParseRaised.

Record os_api (W : Type) : Type := mkOs {
  path_exists : W -> string -> bool;
  read_text : W -> string -> option (option str);
  write_text : W -> string -> str -> W * bool
}.

Inductive main_log : Type :=
| From_validator (l : log_record)
| Error_configuration
| Error_input_not_found (path : string)
| Error_reading_input
| Error_writing_output
| Error_unexpected
| Info_written (path : string).

Inductive outcome : Type :=
| Returned
| Exited (status : nat).

(** [setup_argparse_result] is what the call of [setup_argparse] on the
    command line of the run comes to.  [read_text] answers
    [Some (Some text)] for a file read, [Some None] for [FileNotFoundError],
    and [None] for any other exception. *)
Definition main (W : Type) (os : os_api W)
  (setup_argparse_result : parsed) (w : W)
  : outcome * W * list main_log :=
  match setup_argparse_result with
  | ParseExit status => (Exited status, w, [])
  | ParseRaised => (Exited 1, w, [Error_unexpected])
  | Parsed args =>
      let v := new_SanitizeConfig (path_exists os w) args in
      let log := map From_validator (snd v) in
      match fst v with
      | Raise => (Exited 1, w, log ++ [Error_configuration])
      | Ok config =>
          match read_text os w (input_file config) with
          | Some None =>
              (Exited 1, w, log ++ [Error_input_not_found (input_file config)])
          | None => (Exited 1, w, log ++ [Error_reading_input])
          | Some (Some text) =>
              match sanitize_text text config with
              | Raise => (Exited 1, w, log ++ [Error_unexpected])
              | Ok sanitized_text =>
                  let o :=
                    write_text os w (output_file config) sanitized_text in
                  if snd o
                  then (Returned, fst o,
                        log ++ [Info_written (output_file config)])
                  else (Exited 1, fst o, log ++ [Error_writing_output])
              end
          end
      end
  end.

Unset Implicit Arguments.

(** * Properties *)

(** ** The matcher against [Mt] *)

Lemma after_app (p : option char) (a b : str) :
  after p (a ++ b) = after (after p a) b.
Proof. revert p; induction a as [|c a IH]; simpl; intros; auto. Qed.

Section LoopFacts.
Variable A : Type.
Variable m : matcher A.
Variable M : option char -> str -> str -> Prop.

Hypothesis m_sound : forall p t k x,
    m p t k = Some x ->
    exists s post, t = s ++ post /\ M p s post /\ k (after p s) post = Some x.

Lemma times_sound n : forall p t k x,
    times m n p t k = Some x ->
    exists s post, t = s ++ post /\ iterM M n p s post
                   /\ k (after p s) post = Some x.
Proof.
  induction n as [|n IH]; simpl; intros p t k x H.
  - exists [], t; auto.
  - apply m_sound in H. destruct H as (s1 & post1 & -> & HM & H).
    apply IH in H. destruct H as (s2 & post & -> & HI & H).
    exists (s1 ++ s2), post. rewrite <- app_assoc, after_app.
    repeat split; auto. exists s1, s2; auto.
Qed.

Lemma upto_sound g n : forall p t k x,
    upto m g n p t k = Some x ->
    exists j s post, j <= n /\ t = s ++ post /\ iterM M j p s post
                     /\ k (after p s) post = Some x.
Proof.
  induction n as [|n IH]; simpl; intros p t k x H.
  - exists 0, [], t; simpl; auto.
  - assert (Hstay : k p t = Some x ->
                    exists j s post, j <= S n /\ t = s ++ post
                      /\ iterM M j p s post /\ k (after p s) post = Some x).
    { intros Hk. exists 0, [], t; simpl; repeat split; auto; lia. }
    assert (Hgo : m p t (fun p' s' => upto m g n p' s' k) = Some x ->
                  exists j s post, j <= S n /\ t = s ++ post
                    /\ iterM M j p s post /\ k (after p s) post = Some x).
    { intros Hm. apply m_sound in Hm.
      destruct Hm as (s1 & post1 & -> & HM & Hm).
      apply IH in Hm. destruct Hm as (j & s2 & post & Hj & -> & HI & Hk).
      exists (S j), (s1 ++ s2), post. rewrite <- app_assoc, after_app.
      repeat split; auto; try lia. exists s1, s2; auto. }
    destruct g.
    + destruct (m p t _) eqn:E; [inversion H; subst; auto | auto].
    + destruct (k p t) eqn:E; [inversion H; subst; auto | auto].
Qed.

Hypothesis m_complete : forall p s post k x,
    M p s post -> k (after p s) post = Some x ->
    exists y, m p (s ++ post) k = Some y.

Lemma times_complete n : forall p s post k x,
    iterM M n p s post -> k (after p s) post = Some x ->
    exists y, times m n p (s ++ post) k = Some y.
Proof.
  induction n as [|n IH]; simpl; intros p s post k x HI Hk.
  - subst s. exists x; auto.
  - destruct HI as (s1 & s2 & -> & HM & HI).
    rewrite after_app in Hk.
    destruct (IH _ _ _ _ _ HI Hk) as (y & Hy).
    rewrite <- app_assoc.
    eapply m_complete; eauto.
Qed.

Lemma upto_complete g n : forall j p s post k x,
    j <= n -> iterM M j p s post -> k (after p s) post = Some x ->
    exists y, upto m g n p (s ++ post) k = Some y.
Proof.
  induction n as [|n IH]; simpl; intros j p s post k x Hj HI Hk.
  - assert (j = 0) by lia. subst j. simpl in HI. subst s. exists x; auto.
  - destruct j as [|j]; simpl in HI.
    + subst s. simpl in *. destruct g.
      * destruct (m p post _); eauto.
      * rewrite Hk; eauto.
    + destruct HI as (s1 & s2 & -> & HM & HI).
      rewrite after_app in Hk.
      destruct (IH j _ _ _ _ _ ltac:(lia) HI Hk) as (y & Hy).
      rewrite <- app_assoc.
      destruct (m_complete _ _ _ (fun p' s' => upto m g n p' s' k) _ HM Hy)
        as (y' & Hy').
      destruct g.
      * rewrite Hy'; eauto.
      * destruct (k p (s1 ++ s2 ++ post)); eauto.
Qed.
End LoopFacts.

Section IterFacts.
Variable M : option char -> str -> str -> Prop.

Lemma iterM_app n j : forall p s1 s2 post,
    iterM M n p s1 (s2 ++ post) -> iterM M j (after p s1) s2 post ->
    iterM M (n + j) p (s1 ++ s2) post.
Proof.
  induction n as [|n IH]; simpl; intros p s1 s2 post H1 H2.
  - subst s1. auto.
  - destruct H1 as (a & b & -> & HM & HI).
    rewrite after_app in H2.
    exists a, (b ++ s2). rewrite <- !app_assoc. repeat split; auto.
Qed.

Lemma iterM_split n j : forall p s post,
    iterM M (n + j) p s post ->
    exists s1 s2, s = s1 ++ s2 /\ iterM M n p s1 (s2 ++ post)
                  /\ iterM M j (after p s1) s2 post.
Proof.
  induction n as [|n IH]; simpl; intros p s post H.
  - exists [], s; auto.
  - destruct H as (a & b & -> & HM & HI).
    apply IH in HI. destruct HI as (s1 & s2 & -> & H1 & H2).
    exists (a ++ s1), s2. split; [apply app_assoc|]. split.
    + exists a, s1. rewrite <- app_assoc in HM. auto.
    + rewrite after_app. auto.
Qed.

Hypothesis M_nonempty : forall p s post, M p s post -> s <> [].

Lemma iterM_length n : forall p s post,
    iterM M n p s post -> n <= length s.
Proof.
  induction n as [|n IH]; simpl; intros p s post H; [lia|].
  destruct H as (a & b & -> & HM & HI).
  apply IH in HI. apply M_nonempty in HM.
  rewrite length_app. destruct a; [congruence | simpl; lia].
Qed.
End IterFacts.

Lemma iterM_mono (M M' : option char -> str -> str -> Prop) n :
  forall p p' s post post',
    (forall q q' s0 t t', M q s0 t -> M' q' s0 t') ->
    iterM M n p s post -> iterM M' n p' s post'.
Proof.
  induction n as [|n IH]; simpl; intros p p' s post post' HMM H; auto.
  destruct H as (a & b & -> & HM & HI).
  exists a, b. repeat split; eauto.
Qed.

Lemma iterM_Forall (M : option char -> str -> str -> Prop) (P : char -> Prop) n :
  forall p s post,
    (forall q s0 t, M q s0 t -> Forall P s0) ->
    iterM M n p s post -> Forall P s.
Proof.
  induction n as [|n IH]; simpl; intros p s post HP H.
  - subst; constructor.
  - destruct H as (a & b & -> & HM & HI).
    apply Forall_app; split; eauto.
Qed.

Lemma Mt_nonnull r :
  nonnull r = true -> forall p s post, Mt r p s post -> s <> [].
Proof.
  induction r as [cls| |r1 IH1 r2 IH2|g lo hi r1 IH]; simpl; intros Hn p s post H.
  - destruct H as (c & -> & _). discriminate.
  - discriminate.
  - destruct H as (s1 & s2 & -> & H1 & H2).
    apply orb_true_iff in Hn. intros E. apply app_eq_nil in E.
    destruct E as [-> ->]. destruct Hn as [Hn|Hn].
    + eapply IH1; eauto.
    + eapply IH2; eauto.
  - apply andb_true_iff in Hn. destruct Hn as [Hlo Hn].
    apply Nat.ltb_lt in Hlo.
    destruct H as (n & Hn1 & _ & HI).
    destruct n as [|n]; [lia|]. simpl in HI.
    destruct HI as (a & b & -> & HM & _).
    intros E. apply app_eq_nil in E. destruct E as [-> _].
    eapply IH; eauto.
Qed.

Lemma Mt_uses r :
  forall p s post, Mt r p s post -> Forall (fun c => uses r c = true) s.
Proof.
  induction r as [cls| |r1 IH1 r2 IH2|g lo hi r1 IH]; simpl; intros p s post H.
  - destruct H as (c & -> & Hc). repeat constructor; auto.
  - destruct H as [-> _]. constructor.
  - destruct H as (s1 & s2 & -> & H1 & H2).
    apply Forall_app; split.
    + eapply Forall_impl; [|eapply IH1; eauto].
      intros a Ha; simpl in Ha; rewrite Ha; auto.
    + eapply Forall_impl; [|eapply IH2; eauto].
      intros a Ha; simpl in Ha; rewrite Ha; apply orb_true_r.
  - destruct H as (n & _ & _ & HI).
    eapply iterM_Forall; eauto.
Qed.

(** A pattern without [\b] does not look at what surrounds its match. *)
Lemma Mt_nowb r :
  nowb r = true ->
  forall p p' s post post', Mt r p s post -> Mt r p' s post'.
Proof.
  induction r as [cls| |r1 IH1 r2 IH2|g lo hi r1 IH]; simpl;
    intros Hb p p' s post post' H; auto.
  - discriminate.
  - apply andb_true_iff in Hb. destruct Hb as [Hb1 Hb2].
    destruct H as (s1 & s2 & -> & H1 & H2).
    exists s1, s2; repeat split; eauto.
  - destruct H as (n & Hlo & Hhi & HI).
    exists n; repeat split; auto.
    eapply iterM_mono; eauto.
Qed.

Lemma Mt_anchor b p s post :
  Mt (anchor b) p s post <->
  at_boundary p (s ++ post) = true /\ Mt b p s post
  /\ at_boundary (after p s) post = true.
Proof.
  unfold anchor; simpl. split.
  - intros (s1 & s2 & -> & (-> & Hb1) & s3 & s4 & -> & Hm & -> & Hb2).
    simpl in *. rewrite app_nil_r in *. auto.
  - intros (Hb1 & Hm & Hb2).
    exists [], s. simpl. repeat split; auto.
    exists s, []. rewrite app_nil_r. simpl. auto.
Qed.

Lemma bt_sound r :
  wf r = true ->
  forall A p t (k : cont A) x,
    bt r p t k = Some x ->
    exists s post, t = s ++ post /\ Mt r p s post
                   /\ k (after p s) post = Some x.
Proof.
  induction r as [cls| |r1 IH1 r2 IH2|g lo hi r1 IH]; simpl;
    intros Hwf A p t k x H.
  - destruct t as [|c t]; [discriminate|].
    destruct (in_class cls c) eqn:E; [|discriminate].
    exists [c], t. simpl. repeat split; eauto.
  - destruct (at_boundary p t) eqn:E; [|discriminate].
    exists [], t. simpl. auto.
  - apply andb_true_iff in Hwf. destruct Hwf as [W1 W2].
    apply (IH1 W1) in H. destruct H as (s1 & post1 & -> & H1 & H).
    apply (IH2 W2) in H. destruct H as (s2 & post & -> & H2 & H).
    exists (s1 ++ s2), post. rewrite <- app_assoc, after_app.
    repeat split; auto. exists s1, s2; auto.
  - apply andb_true_iff in Hwf. destruct Hwf as [W1 W2].
    apply times_sound with (M := Mt r1) in H; [|intros; eapply IH; eauto].
    destruct H as (s1 & post1 & -> & HI1 & H).
    apply upto_sound with (M := Mt r1) in H; [|intros; eapply IH; eauto].
    destruct H as (j & s2 & post & Hj & -> & HI2 & H).
    exists (s1 ++ s2), post. rewrite <- app_assoc, after_app.
    repeat split; auto.
    exists (lo + j). repeat split; [lia| |apply iterM_app; auto].
    destruct hi as [h|]; auto. simpl in Hj.
    apply Nat.leb_le in W2. lia.
Qed.

Lemma bt_complete r :
  wf r = true ->
  forall A p s post (k : cont A) x,
    Mt r p s post -> k (after p s) post = Some x ->
    exists y, bt r p (s ++ post) k = Some y.
Proof.
  induction r as [cls| |r1 IH1 r2 IH2|g lo hi r1 IH]; simpl;
    intros Hwf A p s post k x H Hk.
  - destruct H as (c & -> & Hc). simpl in *. rewrite Hc. eauto.
  - destruct H as [-> Hb]. simpl in *. rewrite Hb. eauto.
  - apply andb_true_iff in Hwf. destruct Hwf as [W1 W2].
    destruct H as (s1 & s2 & -> & H1 & H2).
    rewrite after_app in Hk.
    destruct (IH2 W2 _ _ _ _ _ _ H2 Hk) as (y & Hy).
    rewrite <- app_assoc.
    eapply (IH1 W1 _ _ _ _ (fun p' s' => bt r2 p' s' k)); eauto.
  - apply andb_true_iff in Hwf. destruct Hwf as [W1 W2].
    destruct H as (n & Hlo & Hhi & HI).
    replace n with (lo + (n - lo)) in HI by lia.
    apply iterM_split in HI. destruct HI as (s1 & s2 & -> & HI1 & HI2).
    rewrite after_app in Hk.
    assert (Hj : n - lo <= extra lo hi (s2 ++ post)).
    { destruct hi as [h|]; simpl; [lia|].
      rewrite length_app.
      pose proof (@iterM_length (Mt r1) (Mt_nonnull _ W2) _ _ _ _ HI2). lia. }
    assert (Hc : forall p0 s0 post0 (k0 : cont A) x0,
               Mt r1 p0 s0 post0 -> k0 (after p0 s0) post0 = Some x0 ->
               exists y, bt r1 p0 (s0 ++ post0) k0 = Some y).
    { intros. eapply IH; eauto. }
    destruct (@upto_complete A (bt r1) (Mt r1) Hc g _ _ _ _ _ _ _ Hj HI2 Hk)
      as (y & Hy).
    rewrite <- app_assoc.
    eapply (@times_complete A (bt r1) (Mt r1) Hc); eauto.
Qed.

Lemma match_at_sound r p t adv n :
  wf r = true -> match_at r p t adv = Some n ->
  exists s post, t = s ++ post /\ length s = n /\ Mt r p s post.
Proof.
  unfold match_at. intros W H.
  apply bt_sound in H; auto.
  destruct H as (s & post & -> & HM & H).
  exists s, post. repeat split; auto.
  rewrite length_app in H.
  replace (length s + length post - length post) with (length s) in H by lia.
  destruct (adv && (length s =? 0)); congruence.
Qed.

Lemma match_at_complete r p s post adv :
  wf r = true -> nonnull r = true -> Mt r p s post ->
  exists n, match_at r p (s ++ post) adv = Some n.
Proof.
  unfold match_at. intros W N H.
  assert (Hs : s <> []) by (eapply Mt_nonnull; eauto).
  eapply bt_complete with (x := length s); eauto.
  rewrite length_app.
  replace (length s + length post - length post) with (length s) by lia.
  destruct s; [congruence|]. simpl. rewrite andb_false_r. reflexivity.
Qed.

Lemma match_at_nonnull r p t adv :
  wf r = true -> nonnull r = true -> match_at r p t adv <> Some 0.
Proof.
  intros W N H. apply match_at_sound in H; auto.
  destruct H as (s & post & _ & Hl & HM).
  apply Mt_nonnull in HM; auto. destruct s; simpl in *; congruence.
Qed.

(** ** Lists and positions *)

Lemma after_nonempty (p q : option char) (s : str) :
  s <> [] -> after p s = after q s.
Proof. destruct s; [congruence | reflexivity]. Qed.

Lemma after_In (s : str) : forall p z,
  s <> [] -> after p s = Some z -> In z s.
Proof.
  induction s as [|c s IH]; intros p z Hs H; [congruence|].
  simpl in H. destruct s as [|c' s].
  - simpl in H. inversion H; subst. left; auto.
  - right. eapply IH; eauto. discriminate.
Qed.

Lemma hd_error_app (s x : str) :
  s <> [] -> hd_error (s ++ x) = hd_error s.
Proof. destruct s; [congruence | reflexivity]. Qed.

Lemma at_boundary_hd (p : option char) (t t' : str) :
  hd_error t = hd_error t' -> at_boundary p t = at_boundary p t'.
Proof. unfold at_boundary. intros ->. reflexivity. Qed.

(** Where a run [s] of characters with [P] lies in [seg ++ m ++ out], when
    neither end of [m] has [P]: before [m], inside it, or after it. *)
Lemma locate (P : char -> Prop) (a s post seg m out : str) (h z : char) :
  hd_error m = Some h -> after None m = Some z -> ~ P h -> ~ P z ->
  s <> [] -> Forall P s ->
  a ++ s ++ post = seg ++ m ++ out ->
  (exists x, seg = a ++ s ++ x /\ post = x ++ m ++ out)
  \/ (exists u v, u <> [] /\ v <> [] /\ m = u ++ s ++ v
                  /\ a = seg ++ u /\ post = v ++ out)
  \/ (exists y, a = seg ++ m ++ y /\ out = y ++ s ++ post).
Proof.
  intros Hh Hz Ph Pz Hs HP E.
  assert (Hm : m <> []) by (destruct m; [discriminate | discriminate]).
  apply app_eq_app in E. destruct E as (l & [[Ea E]|[Ea E]]).
  - (* a = seg ++ l *)
    apply app_eq_app in E. destruct E as (l2 & [[Em E]|[El E]]).
    + (* m = l ++ l2, s ++ post = l2 ++ out *)
      destruct l2 as [|c2 l2].
      * right; right. exists []. rewrite app_nil_r in Em. subst l.
        simpl in E. subst. rewrite app_nil_r. auto.
      * destruct l as [|c l].
        { exfalso. simpl in Em. subst m. simpl in Hh. inversion Hh; subst c2.
          destruct s as [|c s]; [congruence|]. simpl in E. inversion E; subst.
          inversion HP; subst. auto. }
        symmetry in E. apply app_eq_app in E.
        destruct E as (l3 & [[E1 E2]|[E1 E2]]).
        { (* c2 :: l2 = s ++ l3 *)
          destruct l3 as [|c3 l3].
          - exfalso. rewrite app_nil_r in E1. subst s.
            rewrite Em, after_app in Hz.
            apply after_In in Hz; [|discriminate].
            rewrite Forall_forall in HP. auto.
          - right; left. exists (c :: l), (c3 :: l3).
            split; [discriminate|]. split; [discriminate|].
            split; [rewrite Em, E1; reflexivity|]. auto. }
        { (* s = (c2 :: l2) ++ l3 *)
          exfalso. rewrite Em, after_app in Hz.
          apply after_In in Hz; [|discriminate].
          rewrite Forall_forall in HP. apply Pz, HP. subst s.
          apply in_or_app; auto. }
    + right; right. exists l2. subst. auto.
  - (* seg = a ++ l *)
    symmetry in E. apply app_eq_app in E. destruct E as (l2 & [[El E]|[Es E]]).
    + left. exists l2. subst. auto.
    + (* s = l ++ l2, m ++ out = l2 ++ post *)
      destruct l2 as [|c2 l2].
      * left. exists []. rewrite app_nil_r in Es. subst. simpl in E.
        rewrite app_nil_r. auto.
      * exfalso. destruct m as [|c m]; [congruence|].
        simpl in Hh, E. inversion Hh; subst c. inversion E; subst.
        rewrite Forall_forall in HP. apply Ph, HP.
        apply in_or_app; right; left; auto.
Qed.

(** ** The scan *)

Lemma scan_skip r : forall mt rest p,
  scan r p (mt ++ rest) (length mt) = scan r (after p mt) rest 0.
Proof.
  induction mt as [|c mt IH]; intros rest p; [reflexivity|].
  change (scan r (Some c) (mt ++ rest) (length mt)
          = scan r (after (Some c) mt) rest 0).
  apply IH.
Qed.

Lemma scan_0 r p s :
  wf r = true -> nonnull r = true ->
  scan r p s 0 =
  match match_at r p s false with
  | None =>
      match s with
      | c :: s' => Keep c :: scan r (Some c) s' 0
      | [] => []
      end
  | Some n => Hit (firstn n s) :: scan r p s n
  end.
Proof.
  intros W N. pose proof (@match_at_nonnull r p s false W N) as H0.
  destruct s as [|c s]; cbn [scan];
    destruct (match_at r p _ false) as [[|k]|]; try reflexivity; congruence.
Qed.

Lemma render_app t ps1 ps2 :
  render t (ps1 ++ ps2) = render t ps1 ++ render t ps2.
Proof. unfold render. rewrite map_app, concat_app. reflexivity. Qed.

Lemma render_keep t s : render t (map Keep s) = s.
Proof.
  unfold render. induction s as [|c s IH]; simpl; [reflexivity|].
  f_equal. exact IH.
Qed.

Lemma expand_literal m mt : expand [Literal m] mt = m.
Proof. unfold expand. simpl. apply app_nil_r. Qed.

Lemma quiet_cons r p c seg rest :
  match_at r p (c :: seg ++ rest) false = None ->
  quiet r (Some c) seg rest -> quiet r p (c :: seg) rest.
Proof.
  intros H0 Hq a b E Hb. destruct a as [|c' a]; simpl in E.
  - subst b. simpl. exact H0.
  - inversion E; subst. simpl. apply Hq; auto.
Qed.

(** The scan either finds nothing, or keeps a segment in which no match
    starts, replaces the match after it, and goes on behind that match. *)
Lemma scan_cases r :
  wf r = true -> nonnull r = true ->
  forall t p,
    (quiet r p t [] /\ scan r p t 0 = map Keep t)
    \/ (exists seg mt rest,
           t = seg ++ mt ++ rest /\ mt <> [] /\ Mt r (after p seg) mt rest
           /\ quiet r p seg (mt ++ rest)
           /\ scan r p t 0
              = map Keep seg ++ Hit mt :: scan r (after p (seg ++ mt)) rest 0
           /\ match_at r (after p seg) (mt ++ rest) false
              = Some (length mt)).
Proof.
  intros W N. induction t as [|c t IH]; intros p; rewrite scan_0 by auto.
  - destruct (match_at r p [] false) as [n|] eqn:E.
    + exfalso. apply match_at_sound in E; auto.
      destruct E as (s & post & E & _ & HM).
      symmetry in E. apply app_eq_nil in E. destruct E as [-> _].
      eapply Mt_nonnull; eauto.
    + left. split; auto. intros a b E' Hb.
      symmetry in E'. apply app_eq_nil in E'. destruct E' as [_ ->]. congruence.
  - destruct (match_at r p (c :: t) false) as [n|] eqn:E.
    + right. pose proof E as E0. apply match_at_sound in E; auto.
      destruct E as (s & post & E & Hl & HM).
      rewrite E in *. subst n.
      exists [], s, post. cbn [app map after]. repeat split; auto.
      * eapply Mt_nonnull; eauto.
      * intros a b E' Hb. symmetry in E'. apply app_eq_nil in E'.
        destruct E' as [_ ->]. congruence.
      * rewrite firstn_app, Nat.sub_diag, firstn_all, scan_skip.
        cbn [firstn]. rewrite app_nil_r. reflexivity.
    + destruct (IH (Some c))
        as [[Hq Hs]|(seg & mt & rest & Et & Hmt & HM & Hq & Hs & Hat)].
      * left. split.
        -- apply quiet_cons; auto. rewrite app_nil_r. exact E.
        -- simpl. rewrite Hs. reflexivity.
      * right. exists (c :: seg), mt, rest. simpl. repeat split; auto.
        -- rewrite Et. reflexivity.
        -- apply quiet_cons; auto. rewrite <- Et. exact E.
        -- rewrite Hs. reflexivity.
Qed.

Lemma hit_transfer b p q s post post' :
  nowb b = true -> Mt (anchor b) q s post ->
  at_boundary p (s ++ post') = true ->
  at_boundary (after p s) post' = true ->
  Mt (anchor b) p s post'.
Proof.
  intros Hb H H1 H2. apply Mt_anchor in H. apply Mt_anchor.
  destruct H as (_ & HM & _). repeat split; auto.
  eapply Mt_nowb; eauto.
Qed.

Lemma body_ok_parts b :
  body_ok b = true -> wf b = true /\ nonnull b = true /\ nowb b = true.
Proof.
  unfold body_ok. intros H.
  apply andb_true_iff in H. destruct H as [H H3].
  apply andb_true_iff in H. destruct H as [H1 H2]. auto.
Qed.

Lemma anchor_wf b : body_ok b = true -> wf (anchor b) = true.
Proof.
  intros H. apply body_ok_parts in H. destruct H as (W & _ & _).
  simpl. rewrite W. reflexivity.
Qed.

Lemma anchor_nonnull b : body_ok b = true -> nonnull (anchor b) = true.
Proof.
  intros H. apply body_ok_parts in H. destruct H as (_ & N & _).
  simpl. rewrite N. reflexivity.
Qed.

Lemma anchor_hit_nonempty b p s post :
  body_ok b = true -> Mt (anchor b) p s post -> s <> [].
Proof. intros H. apply Mt_nonnull, anchor_nonnull, H. Qed.

Lemma anchor_hit_uses b p s post :
  Mt (anchor b) p s post -> Forall (fun c => uses b c = true) s.
Proof.
  intros H. apply Mt_anchor in H. destruct H as (_ & H & _).
  eapply Mt_uses; eauto.
Qed.

Lemma render_cons t x ps : render t (x :: ps) = render_piece t x ++ render t ps.
Proof. reflexivity. Qed.

Lemma start_boundary (p q : option char) (a s y y' t : str) :
  s <> [] ->
  (at_boundary q t = true -> at_boundary p t = true) ->
  hd_error t = hd_error (a ++ s) ->
  at_boundary (after q a) (s ++ y) = true ->
  at_boundary (after p a) (s ++ y') = true.
Proof.
  intros Hs Hlink Hhd H. destruct a as [|c a].
  - simpl in *.
    rewrite (at_boundary_hd p (s ++ y') t)
      by (rewrite Hhd; apply hd_error_app; auto).
    apply Hlink.
    rewrite (at_boundary_hd q t (s ++ y))
      by (rewrite Hhd; symmetry; apply hd_error_app; auto).
    exact H.
  - simpl in *.
    rewrite (at_boundary_hd _ (s ++ y') (s ++ y))
      by (rewrite !hd_error_app; auto).
    exact H.
Qed.

(** ** A pass creates no match

    [b] is the detector whose pass runs, [b'] the detector looked for in the
    result, [m] the marker. *)
Section Survive.
Variables b b' : regex.
Variable m : str.
Variables h z : char.

Hypothesis Hb : body_ok b = true.
Hypothesis Hb' : body_ok b' = true.
Hypothesis Hh : hd_error m = Some h.
Hypothesis Hz : after None m = Some z.
Hypothesis Uh : uses b' h = false.
Hypothesis Uz : uses b' z = false.
Hypothesis Hfree : free (anchor b') None m.

(** A match of [b'] in the result of the pass of [b] is a match of [b'] in
    the text the pass ran on, at a place where [b] did not match. *)
Lemma survive : forall n t p q,
    length t < n ->
    (at_boundary q t = true -> at_boundary p t = true) ->
    forall a s post,
      render [Literal m] (scan (anchor b) p t 0) = a ++ s ++ post ->
      Mt (anchor b') (after q a) s post ->
      exists a0 post0,
        t = a0 ++ s ++ post0 /\ Mt (anchor b') (after p a0) s post0
        /\ match_at (anchor b) (after p a0) (s ++ post0) false = None.
Proof.
  induction n as [|n IH]; intros t p q Hlen Hlink a s post Eout Hhit; [lia|].
  assert (Hs : s <> []) by (eapply anchor_hit_nonempty; eauto).
  pose proof (anchor_hit_uses _ _ _ _ Hhit) as Hu.
  destruct (proj1 (Mt_anchor _ _ _ _) Hhit) as (B1 & _ & B2).
  destruct (body_ok_parts _ Hb') as (_ & _ & NB').
  assert (Hm : m <> []) by (destruct m; discriminate).
  destruct (scan_cases _ (anchor_wf _ Hb) (anchor_nonnull _ Hb) t p)
    as [[Hq Hsc]|(seg & mt & rest & Et & Hmt & HM & Hq & Hsc & _)].
  - rewrite Hsc, render_keep in Eout. subst t.
    exists a, post. split; [reflexivity|]. split.
    + apply hit_transfer with (q := after q a) (post := post); auto.
      * eapply start_boundary; eauto.
        rewrite app_assoc. apply hd_error_app.
        intros E; apply app_eq_nil in E; destruct E; auto.
      * rewrite (after_nonempty _ (after q a)) by auto. exact B2.
    + specialize (Hq a (s ++ post) eq_refl).
      rewrite app_nil_r in Hq. apply Hq.
      destruct s; [congruence | discriminate].
  - rewrite Hsc, render_app, render_keep, render_cons in Eout.
    cbn [render_piece] in Eout. rewrite expand_literal in Eout.
    destruct (proj1 (Mt_anchor _ _ _ _) HM) as (M1 & _ & M2).
    symmetry in Eout.
    apply locate with (P := fun c => uses b' c = true) (h := h) (z := z)
      in Eout; auto; try (rewrite ?Uh, ?Uz; discriminate).
    destruct Eout as [(x & Eseg & Epost)
                     |[(u & v & Hu0 & Hv0 & Em & Ea & Epost)
                      |(y & Ea & Eo)]].
    + (* the match lies in the segment kept before the marker *)
      exists a, (x ++ mt ++ rest). split.
      { rewrite Et, Eseg, <- !app_assoc. reflexivity. }
      split.
      * apply hit_transfer with (q := after q a) (post := post); auto.
        -- eapply start_boundary; eauto.
           rewrite Et, Eseg, <- !app_assoc, app_assoc.
           apply hd_error_app.
           intros E; apply app_eq_nil in E; destruct E; auto.
        -- destruct x as [|c x].
           ++ rewrite app_nil_r in Eseg. cbn [app].
              rewrite Eseg, after_app in M1. exact M1.
           ++ rewrite (after_nonempty _ (after q a)) by auto.
              rewrite Epost in B2. exact B2.
      * specialize (Hq a (s ++ x) Eseg). rewrite <- app_assoc in Hq.
        apply Hq. destruct s; [congruence | discriminate].
    + (* the match lies inside the marker *)
      exfalso. apply (Hfree u s v Em).
      apply hit_transfer with (q := after q a) (post := post); auto.
      * rewrite Ea, after_app in B1.
        rewrite (after_nonempty None (after q seg)) by auto.
        rewrite (at_boundary_hd _ (s ++ v) (s ++ post))
          by (rewrite !hd_error_app; auto).
        exact B1.
      * rewrite (after_nonempty _ (after q a)) by auto.
        rewrite (at_boundary_hd _ v post)
          by (rewrite Epost; symmetry; apply hd_error_app; auto).
        exact B2.
    + (* the match lies behind the marker *)
      assert (Hl : length rest < n).
      { rewrite Et, !length_app in Hlen.
        destruct mt; [congruence | simpl in Hlen; lia]. }
      assert (Ea' : after q a = after (after q (seg ++ m)) y).
      { rewrite Ea, app_assoc, after_app. reflexivity. }
      rewrite Ea' in Hhit.
      destruct (IH rest (after p (seg ++ mt)) (after q (seg ++ m)) Hl
                  ltac:(intros _; rewrite after_app; exact M2)
                  y s post Eo Hhit)
        as (a0 & post0 & Er & Hm0 & Hn0).
      exists (seg ++ mt ++ a0), post0.
      replace (after p (seg ++ mt ++ a0))
        with (after (after p (seg ++ mt)) a0)
        by (rewrite <- after_app, <- app_assoc; reflexivity).
      repeat split; auto.
      rewrite Et, Er, <- !app_assoc. reflexivity.
Qed.
End Survive.

(** ** Texts without a match *)

Lemma free_of_occurs r :
  wf r = true -> nonnull r = true ->
  forall t p, occurs r p t = false -> free r p t.
Proof.
  intros W N. induction t as [|c t IH]; intros p Ho a s post E HM.
  - symmetry in E. apply app_eq_nil in E. destruct E as [_ E].
    apply app_eq_nil in E. destruct E as [-> _].
    eapply Mt_nonnull; eauto.
  - cbn [occurs] in Ho.
    destruct (match_at r p (c :: t) false) eqn:E0; [discriminate|].
    destruct a as [|c' a].
    + simpl in E, HM.
      destruct (match_at_complete r p s post false W N HM) as (n & Hn).
      rewrite <- E in Hn. congruence.
    + simpl in E. inversion E; subst c' t.
      eapply (IH (Some c) Ho a s post); eauto.
Qed.

Lemma free_scan r :
  wf r = true -> nonnull r = true ->
  forall t p, free r p t -> scan r p t 0 = map Keep t.
Proof.
  intros W N t p Hf.
  destruct (scan_cases r W N t p)
    as [[_ Hs]|(seg & mt & rest & Et & _ & HM & _)]; auto.
  exfalso. eapply Hf; eauto.
Qed.

Lemma free_lit_pass en b m t :
  body_ok b = true ->
  (en = true -> free (anchor b) None t) -> lit_pass en b m t = t.
Proof.
  intros Hb Hf. unfold lit_pass, lit_sub. destruct en; auto.
  rewrite free_scan; auto using anchor_wf, anchor_nonnull.
  apply render_keep.
Qed.

Section PassFree.
Variables b b' : regex.
Variable m : str.
Variables h z : char.

Hypothesis Hb : body_ok b = true.
Hypothesis Hb' : body_ok b' = true.
Hypothesis Hh : hd_error m = Some h.
Hypothesis Hz : after None m = Some z.
Hypothesis Uh : uses b' h = false.
Hypothesis Uz : uses b' z = false.
Hypothesis Hfree : free (anchor b') None m.

(** a text without a match of [b'] has none after the pass of [b] *)
Lemma pass_keeps_free en t :
  free (anchor b') None t -> free (anchor b') None (lit_pass en b m t).
Proof.
  intros Hf. unfold lit_pass. destruct en; auto.
  intros a s post E HM.
  destruct (survive b b' m h z Hb Hb' Hh Hz Uh Uz Hfree
              (S (length t)) t None None (Nat.lt_succ_diag_r _)
              (fun H => H) a s post E HM)
    as (a0 & post0 & Et & HM0 & _).
  eapply Hf; eauto.
Qed.

(** the pass of a detector leaves no match of that detector *)
Lemma pass_makes_free t :
  b' = b -> free (anchor b) None (lit_pass true b m t).
Proof.
  intros Eb. subst b'. unfold lit_pass.
  intros a s post E HM.
  destruct (survive b b m h z Hb Hb Hh Hz Uh Uz Hfree
              (S (length t)) t None None (Nat.lt_succ_diag_r _)
              (fun H => H) a s post E HM)
    as (a0 & post0 & Et & HM0 & Hn).
  destruct (match_at_complete (anchor b) (after None a0) s post0 false
              (anchor_wf _ Hb) (anchor_nonnull _ Hb) HM0) as (n & Hn').
  congruence.
Qed.
End PassFree.

Lemma detectors_ok : forall c, body_ok (body_of c) = true.
Proof. intros []; vm_compute; reflexivity. Qed.

Lemma body_of_detector c : In (body_of c) detectors.
Proof. destruct c; simpl; auto. Qed.

Lemma inert_marker_facts m :
  inert_marker m = true ->
  compile_repl m = Ok [Literal m]
  /\ exists h z,
      hd_error m = Some h /\ after None m = Some z
      /\ forall c, uses (body_of c) h = false /\ uses (body_of c) z = false
                   /\ free (pattern c) None m.
Proof.
  unfold inert_marker. intros H.
  apply andb_true_iff in H. destruct H as [H H3].
  apply andb_true_iff in H. destruct H as [H1 H2].
  split.
  - unfold compile_repl. apply negb_true_iff in H1. rewrite H1. reflexivity.
  - destruct (hd_error m) as [h|]; [|discriminate].
    destruct (after None m) as [z|]; [|discriminate].
    apply andb_true_iff in H2. destruct H2 as [Hh Hz].
    exists h, z. split; [reflexivity|]. split; [reflexivity|].
    intros c. split; [|split].
    + unfold unused in Hh. rewrite forallb_forall in Hh.
      apply negb_true_iff, Hh, body_of_detector.
    + unfold unused in Hz. rewrite forallb_forall in Hz.
      apply negb_true_iff, Hz, body_of_detector.
    + rewrite forallb_forall in H3.
      pose proof (H3 _ (body_of_detector c)) as Ho.
      apply negb_true_iff in Ho.
      apply free_of_occurs; auto.
      * apply anchor_wf, detectors_ok.
      * apply anchor_nonnull, detectors_ok.
Qed.

Lemma sanitize_text_literal text config :
  compile_repl (redact_char config) = Ok [Literal (redact_char config)] ->
  sanitize_text text config =
  Ok (lit_pass (remove_credit_card config) credit_card_body (redact_char config)
        (lit_pass (remove_email config) email_body (redact_char config)
           (lit_pass (remove_phone config) phone_body (redact_char config)
              (lit_pass (remove_ssn config) ssn_body (redact_char config)
                 text)))).
Proof.
  intros Hc. unfold sanitize_text, re_sub. rewrite Hc.
  destruct (remove_ssn config), (remove_phone config),
    (remove_email config), (remove_credit_card config); reflexivity.
Qed.

(** * The claims *)

(** C1. Literal scenario 1: with all four detectors enabled and the marker
    "<REDACTED>", the text
    "Contact John at 555-123-4567 or john@example.com. SSN: 123-45-6789."
    becomes "Contact John at <REDACTED> or <REDACTED>. SSN: <REDACTED>.",
    and the SSN, phone and email passes each replace exactly one match (the
    credit-card pass none). *)
Theorem literal_scenario_1 :
  let text :=
    txt "Contact John at 555-123-4567 or john@example.com. SSN: 123-45-6789." in
  let out := txt "Contact John at <REDACTED> or <REDACTED>. SSN: <REDACTED>." in
  sanitize_text text default_config = Ok out
  /\ sanitize_with_counts text default_config
     = Ok (mkResult out [(SSN, 1); (PHONE, 1); (EMAIL, 1); (CREDIT_CARD, 0)]).
Proof. split; vm_compute; reflexivity. Qed.

(** C2, as stated, fails: what [sanitize_text] returns is the text alone.
    Two texts give the same returned value although the passes replaced a
    different number of matches, so the counts are not in the result. *)
Lemma result_does_not_hold_counts :
  let t1 := txt "<REDACTED>" in
  let t2 := txt "123-45-6789" in
  sanitize_text t1 default_config = sanitize_text t2 default_config
  /\ map_result matchCounts (sanitize_with_counts t1 default_config)
     <> map_result matchCounts (sanitize_with_counts t2 default_config).
Proof. split; vm_compute; [reflexivity | discriminate]. Qed.

(** C2 (amended). For every text and configuration [sanitize_text] returns
    the output text only: its result is the [outputText] component of the
    specification's result, and raises when that run raises. *)
Theorem sanitize_text_is_output_text text config :
  sanitize_text text config
  = map_result outputText (sanitize_with_counts text config).
Proof.
  unfold sanitize_text, sanitize_with_counts, counted_pass, enabled,
    re_sub, re_subn.
  cbn [fold_left].
  destruct (compile_repl (redact_char config)) as [tm|];
    destruct (remove_ssn config), (remove_phone config),
      (remove_email config), (remove_credit_card config); reflexivity.
Qed.

Lemma scan_replace_all r tm :
  wf r = true -> nonnull r = true ->
  forall n t p,
    length t < n ->
    replace_all r (expand tm) p t (render tm (scan r p t 0)).
Proof.
  intros W N. induction n as [|n IH]; intros t p Hl; [lia|].
  destruct (scan_cases r W N t p)
    as [[Hq Hs]|(seg & mt & rest & Et & Hmt & HM & Hq & Hs & _)]; rewrite Hs.
  - rewrite render_keep. apply ra_done. intros a s post E HM.
    destruct (match_at_complete r (after p a) s post false W N HM)
      as (k & Hk).
    assert (Hne : s ++ post <> []).
    { apply Mt_nonnull in HM; auto. destruct s; [congruence | discriminate]. }
    pose proof (Hq a (s ++ post) E Hne) as Hn.
    rewrite app_nil_r in Hn. congruence.
  - rewrite render_app, render_keep, render_cons. cbn [render_piece].
    rewrite Et. apply ra_hit; auto.
    + intros a b s post Ea Hb Eb HM'.
      destruct (match_at_complete r (after p a) s post false W N HM')
        as (k & Hk).
      rewrite <- Eb, (Hq a b Ea Hb) in Hk. discriminate.
    + apply IH. rewrite Et, !length_app in Hl.
      destruct mt; [congruence | simpl in Hl; lia].
Qed.



(** C4 fails on the code: a phone number written with a leading "+" and a
    country code, at the start of the text or after a space, keeps its "+"
    and country code; only the ten digits behind them are replaced.  The
    [\b] in front of the optional [\+] cannot hold between a space (or the
    start of the text) and "+". *)
Theorem phone_country_code_survives :
  sanitize_text (txt "+1 555-123-4567") default_config
  = Ok (txt "+1 <REDACTED>")
  /\ sanitize_text (txt "Call +44 555-123-4567 now") default_config
     = Ok (txt "Call +44 <REDACTED> now").
Proof. split; vm_compute; reflexivity. Qed.

(** C7. With all four detector categories disabled, [sanitize_text] returns
    the input text unchanged, for every text and every such configuration. *)
Theorem all_disabled_is_identity text config :
  remove_ssn config = false -> remove_phone config = false ->
  remove_email config = false -> remove_credit_card config = false ->
  sanitize_text text config = Ok text.
Proof.
  intros H1 H2 H3 H4. unfold sanitize_text.
  rewrite H1, H2, H3, H4. reflexivity.
Qed.

Lemma all_disabled_is_identity_witness :
  sanitize_text (txt "SSN: 123-45-6789")
    (mkConfig "in.txt" "out.txt" (txt "<REDACTED>") false false false false)
  = Ok (txt "SSN: 123-45-6789").
Proof. apply all_disabled_is_identity; reflexivity. Defined.

(** C9 fails on the code: the marker is handed to [re.sub] as a replacement
    template, and a marker the template compiler refuses (here a single
    backslash) makes [sanitize_text] raise, on every text, as soon as one
    detector is enabled. *)
Theorem backslash_marker_raises text :
  sanitize_text text
    (mkConfig "input.txt" "output.txt" [backslash] true true true true)
  = Raise.
Proof. reflexivity. Qed.

(** C6, as stated, fails: "123" is not PII-shaped (no detector finds a match
    in it), yet as a marker it joins the text behind a replaced card number
    into a new SSN, which a second run replaces. *)
Lemma digit_marker_not_idempotent :
  let config :=
    mkConfig "input.txt" "output.txt" (txt "123") true true true true in
  pii_shaped (txt "123") = false
  /\ sanitize_text (txt "4111111111111111-45-6789") config
     = Ok (txt "123-45-6789")
  /\ sanitize_text (txt "123-45-6789") config = Ok (txt "123").
Proof. repeat split; vm_compute; reflexivity. Qed.

(** C6 (amended). For every marker that has no backslash, in which no
    detector finds a match, and whose first and last characters are accepted
    by no character set of a detector (as "<" and ">" of the default marker
    are), and for every text and every choice of enabled detectors:
    [sanitize_text] returns an output, and [sanitize_text] on that output
    with the same configuration returns it unchanged. *)
Theorem sanitize_idempotent_for_inert_marker text config :
  inert_marker (redact_char config) = true ->
  exists out,
    sanitize_text text config = Ok out /\ sanitize_text out config = Ok out.
Proof.
  intros Hm.
  destruct (inert_marker_facts _ Hm) as (Hc & h & z & Hh & Hz & Hall).
  set (m := redact_char config) in *.
  assert (K : forall c c' en t,
             free (pattern c') None t ->
             free (pattern c') None (lit_pass en (body_of c) m t)).
  { intros c c' en t Hf. destruct (Hall c') as (U1 & U2 & F).
    apply (pass_keeps_free (body_of c) (body_of c') m h z); auto;
      apply detectors_ok. }
  assert (Mk : forall c t,
             free (pattern c) None (lit_pass true (body_of c) m t)).
  { intros c t. destruct (Hall c) as (U1 & U2 & F).
    apply (pass_makes_free (body_of c) (body_of c) m h z); auto;
      apply detectors_ok. }
  rewrite (sanitize_text_literal text config Hc). fold m.
  eexists. split; [reflexivity|].
  rewrite (sanitize_text_literal _ config Hc). fold m. f_equal.
  set (t1 := lit_pass (remove_ssn config) ssn_body m text).
  set (t2 := lit_pass (remove_phone config) phone_body m t1).
  set (t3 := lit_pass (remove_email config) email_body m t2).
  set (t4 := lit_pass (remove_credit_card config) credit_card_body m t3).
  assert (F1 : remove_ssn config = true -> free (pattern SSN) None t4).
  { intros E. apply (K CREDIT_CARD SSN), (K EMAIL SSN), (K PHONE SSN).
    unfold t1. rewrite E. apply (Mk SSN). }
  assert (F2 : remove_phone config = true -> free (pattern PHONE) None t4).
  { intros E. apply (K CREDIT_CARD PHONE), (K EMAIL PHONE).
    unfold t2. rewrite E. apply (Mk PHONE). }
  assert (F3 : remove_email config = true -> free (pattern EMAIL) None t4).
  { intros E. apply (K CREDIT_CARD EMAIL).
    unfold t3. rewrite E. apply (Mk EMAIL). }
  assert (F4 : remove_credit_card config = true ->
               free (pattern CREDIT_CARD) None t4).
  { intros E. unfold t4. rewrite E. apply (Mk CREDIT_CARD). }
  rewrite (free_lit_pass _ ssn_body m t4 (detectors_ok SSN) F1).
  rewrite (free_lit_pass _ phone_body m t4 (detectors_ok PHONE) F2).
  rewrite (free_lit_pass _ email_body m t4 (detectors_ok EMAIL) F3).
  apply (free_lit_pass _ credit_card_body m t4 (detectors_ok CREDIT_CARD) F4).
Qed.

Lemma sanitize_idempotent_for_inert_marker_witness :
  exists out,
    sanitize_text
      (txt "Contact John at 555-123-4567 or john@example.com. SSN: 123-45-6789.")
      default_config = Ok out
    /\ sanitize_text out default_config = Ok out.
Proof.
  apply sanitize_idempotent_for_inert_marker. vm_compute. reflexivity.
Defined.

(** ** Digit runs inside an alphanumeric token *)

Lemma word_card_char_is_digit c :
  is_word c = true -> uses credit_card_body c = true -> is_digit c = true.
Proof.
  destruct c as [[] [] [] [] [] [] [] []]; vm_compute; intros; congruence.
Qed.

Lemma alnum_token_free t :
  Forall (fun c => is_word c = true) t ->
  Exists (fun c => is_digit c = false) t ->
  free credit_card_re None t.
Proof.
  intros Hw Hnd a s post E HM.
  rewrite Forall_forall in Hw.
  assert (Hs : s <> []) by
    (eapply anchor_hit_nonempty; [apply (detectors_ok CREDIT_CARD)|exact HM]).
  pose proof (anchor_hit_uses _ _ _ _ HM) as Hu.
  destruct (proj1 (Mt_anchor _ _ _ _) HM) as (B1 & _ & B2).
  assert (Hin : forall c, In c s -> is_word c = true).
  { intros c Hc. apply Hw. rewrite E. apply in_or_app; right.
    apply in_or_app; auto. }
  destruct s as [|c0 s]; [congruence|].
  destruct a as [|ca a].
  - destruct post as [|cp post].
    + simpl in E. rewrite app_nil_r in E. subst t.
      apply Exists_exists in Hnd. destruct Hnd as (c & Hc & Hd).
      rewrite Forall_forall in Hu.
      rewrite (word_card_char_is_digit c (Hin c Hc) (Hu c Hc)) in Hd.
      discriminate.
    + destruct (after (after None []) (c0 :: s)) as [x|] eqn:Ex.
      * apply after_In in Ex; [|discriminate].
        unfold at_boundary in B2. simpl in B2.
        rewrite (Hin x Ex), (Hw cp) in B2; [discriminate|].
        rewrite E. apply in_or_app; right. apply in_or_app; right; left; auto.
      * simpl in Ex. clear - Ex. revert c0 Ex.
        induction s; simpl; intros; [discriminate | eauto].
  - destruct (after None (ca :: a)) as [x|] eqn:Ex.
    + apply after_In in Ex; [|discriminate].
      unfold at_boundary in B1. simpl in B1.
      rewrite (Hw x), (Hin c0) in B1; [discriminate|left; auto|].
      rewrite E. apply in_or_app; auto.
    + simpl in Ex. clear - Ex. revert ca Ex.
      induction a; simpl; intros; [discriminate | eauto].
Qed.

(** ** The pieces of a scan *)

Lemma unscan_app a b : unscan (a ++ b) = unscan a ++ unscan b.
Proof. unfold unscan. rewrite map_app, concat_app. reflexivity. Qed.

Lemma unscan_keep s : unscan (map Keep s) = s.
Proof.
  unfold unscan. induction s as [|c s IH]; simpl; [reflexivity|].
  f_equal. exact IH.
Qed.

Lemma unscan_hit m ps : unscan (Hit m :: ps) = m ++ unscan ps.
Proof. reflexivity. Qed.

(** the pieces of a scan are the text, cut *)
Lemma unscan_scan r :
  wf r = true -> nonnull r = true ->
  forall n t p, length t < n -> unscan (scan r p t 0) = t.
Proof.
  intros W N. induction n as [|n IH]; intros t p Hl; [lia|].
  destruct (scan_cases r W N t p)
    as [[_ Hs]|(seg & mt & rest & Et & Hmt & _ & _ & Hs & _)]; rewrite Hs.
  - apply unscan_keep.
  - rewrite unscan_app, unscan_keep, unscan_hit, IH, <- Et; auto.
    rewrite Et, !length_app in Hl. destruct mt; [congruence|simpl in Hl; lia].
Qed.

Lemma keep_split seg : forall m0 X pre m post,
  map Keep seg ++ Hit m0 :: X = pre ++ Hit m :: post ->
  (pre = map Keep seg /\ m = m0 /\ post = X)
  \/ (exists pre', pre = map Keep seg ++ Hit m0 :: pre'
                   /\ X = pre' ++ Hit m :: post).
Proof.
  induction seg as [|c seg IH]; intros m0 X pre m post E; simpl in *.
  - destruct pre as [|x pre]; simpl in E; inversion E; subst.
    + left; auto.
    + right. exists pre; auto.
  - destruct pre as [|x pre]; simpl in E; inversion E; subst.
    destruct (IH _ _ _ _ _ H1) as [(-> & -> & ->)|(pre' & -> & ->)].
    + left; auto.
    + right. exists pre'; auto.
Qed.

(** every replaced span is a match of the pattern where it stands, and the
    one the matcher returns there *)
Lemma scan_hits r :
  wf r = true -> nonnull r = true ->
  forall n t p pre mt post,
    length t < n -> scan r p t 0 = pre ++ Hit mt :: post ->
    t = unscan pre ++ mt ++ unscan post
    /\ Mt r (after p (unscan pre)) mt (unscan post)
    /\ match_at r (after p (unscan pre)) (mt ++ unscan post) false
       = Some (length mt).
Proof.
  intros W N. induction n as [|n IH]; intros t p pre mt post Hl E; [lia|].
  destruct (scan_cases r W N t p)
    as [[_ Hs]|(seg & mt0 & rest & Et & Hmt & HM & _ & Hs & Hat)];
    rewrite Hs in E.
  - exfalso. assert (Hin : In (Hit mt) (map Keep t)).
    { rewrite E. apply in_or_app; right; left; auto. }
    apply in_map_iff in Hin. destruct Hin as (c & Hc & _). discriminate.
  - assert (Hlr : length rest < n).
    { rewrite Et, !length_app in Hl.
      destruct mt0; [congruence|simpl in Hl; lia]. }
    apply keep_split in E.
    destruct E as [(-> & -> & ->)|(pre' & -> & E)].
    + rewrite unscan_keep, (unscan_scan r W N n rest _ Hlr). auto.
    + apply (IH rest _ pre' mt post Hlr) in E.
      destruct E as (Er & HM' & Hat').
      rewrite unscan_app, unscan_keep, unscan_hit.
      replace (after p (seg ++ mt0 ++ unscan pre'))
        with (after (after p (seg ++ mt0)) (unscan pre'))
        by (rewrite <- after_app, <- app_assoc; reflexivity).
      repeat split; auto.
      rewrite Et, Er, <- !app_assoc. reflexivity.
Qed.

Lemma replace_all_ext r (f g : str -> str) :
  (forall m, f m = g m) ->
  forall p t out, replace_all r f p t out -> replace_all r g p t out.
Proof.
  intros Hfg p t out H. induction H as [p t Hf|p seg mt rest out Hl Hne HM _ IH].
  - apply ra_done, Hf.
  - rewrite Hfg. apply ra_hit; auto.
Qed.

Lemma lit_pass_deletes en b t :
  body_ok b = true -> pass_deletes en (anchor b) t (lit_pass en b [] t).
Proof.
  intros Hb. unfold pass_deletes, lit_pass, lit_sub. destruct en; auto.
  apply (replace_all_ext (anchor b) (expand [Literal []])).
  - intros m. reflexivity.
  - apply (scan_replace_all (anchor b) [Literal []]) with (n := S (length t));
      auto using anchor_wf, anchor_nonnull.
Qed.

(** C10. A configuration with an empty redaction marker is constructed
    without error and without warning (given an input file that exists and
    an output file that does not), and [sanitize_text] with it returns a
    text: the input text from which each enabled pass, in its turn, has
    deleted every match of its pattern (each match, found from left to
    right, is replaced by the empty text and the text around it is kept). *)
Theorem empty_marker_deletes_matches (fs : filesystem) inp out s p e c text :
  fs inp = true -> fs out = false ->
  let config := mkConfig inp out [] s p e c in
  new_SanitizeConfig fs config = (Ok config, [])
  /\ exists t1 t2 t3 t4,
      sanitize_text text config = Ok t4
      /\ pass_deletes s ssn_re text t1
      /\ pass_deletes p phone_re t1 t2
      /\ pass_deletes e email_re t2 t3
      /\ pass_deletes c credit_card_re t3 t4.
Proof.
  intros Hi Ho config. split.
  - unfold new_SanitizeConfig, input_file_exists, output_file_does_not_exist.
    simpl. rewrite Hi, Ho. reflexivity.
  - rewrite sanitize_text_literal by reflexivity.
    cbn [redact_char remove_ssn remove_phone remove_email remove_credit_card
           config].
    exists (lit_pass s ssn_body [] text).
    exists (lit_pass p phone_body [] (lit_pass s ssn_body [] text)).
    exists (lit_pass e email_body []
              (lit_pass p phone_body [] (lit_pass s ssn_body [] text))).
    eexists. split; [reflexivity|].
    repeat split; apply lit_pass_deletes; reflexivity.
Qed.

Lemma empty_marker_deletes_matches_witness :
  let fs : filesystem := fun path => String.eqb path "input.txt" in
  let config := mkConfig "input.txt" "output.txt" [] true true true true in
  let text := txt "SSN: 123-45-6789, card 4111 1111 1111 1111." in
  new_SanitizeConfig fs config = (Ok config, [])
  /\ exists t1 t2 t3 t4,
      sanitize_text text config = Ok t4
      /\ pass_deletes true ssn_re text t1
      /\ pass_deletes true phone_re t1 t2
      /\ pass_deletes true email_re t2 t3
      /\ pass_deletes true credit_card_re t3 t4.
Proof.
  intros fs config text.
  apply (empty_marker_deletes_matches fs); reflexivity.
Defined.

Example empty_marker_example :
  sanitize_text (txt "SSN: 123-45-6789, card 4111 1111 1111 1111.")
    (mkConfig "input.txt" "output.txt" [] true true true true)
  = Ok (txt "SSN: , card .").
Proof. vm_compute. reflexivity. Qed.


(** ** The answer of the matcher under a change of continuation *)

Section Relate.
Variables A B : Type.
Variable f : A -> B.

Section LoopRel.
Variable m1 : matcher B.
Variable m2 : matcher A.

Hypothesis m_rel : forall p s (k1 : cont B) (k2 : cont A),
    (forall p' s', k1 p' s' = option_map f (k2 p' s')) ->
    m1 p s k1 = option_map f (m2 p s k2).

Lemma times_rel n : forall p s (k1 : cont B) (k2 : cont A),
    (forall p' s', k1 p' s' = option_map f (k2 p' s')) ->
    times m1 n p s k1 = option_map f (times m2 n p s k2).
Proof.
  induction n as [|n IH]; simpl; intros p s k1 k2 Hk; [apply Hk|].
  apply m_rel. intros p' s'. apply IH, Hk.
Qed.

Lemma upto_rel g n : forall p s (k1 : cont B) (k2 : cont A),
    (forall p' s', k1 p' s' = option_map f (k2 p' s')) ->
    upto m1 g n p s k1 = option_map f (upto m2 g n p s k2).
Proof.
  induction n as [|n IH]; simpl; intros p s k1 k2 Hk; [apply Hk|].
  assert (Hm : m1 p s (fun p' s' => upto m1 g n p' s' k1)
               = option_map f (m2 p s (fun p' s' => upto m2 g n p' s' k2))).
  { apply m_rel. intros p' s'. apply IH, Hk. }
  destruct g.
  - rewrite Hm. destruct (m2 p s _); simpl; auto.
  - rewrite Hk. destruct (k2 p s); simpl; auto.
Qed.
End LoopRel.

Lemma bt_rel r : forall p s (k1 : cont B) (k2 : cont A),
    (forall p' s', k1 p' s' = option_map f (k2 p' s')) ->
    bt r p s k1 = option_map f (bt r p s k2).
Proof.
  induction r as [cls| |r1 IH1 r2 IH2|g lo hi r1 IH]; simpl;
    intros p s k1 k2 Hk.
  - destruct s as [|c s]; [reflexivity|].
    destruct (in_class cls c); [apply Hk | reflexivity].
  - destruct (at_boundary p s); [apply Hk | reflexivity].
  - apply IH1. intros p' s'. apply IH2, Hk.
  - apply times_rel; [exact IH|].
    intros p' s'. apply upto_rel; [exact IH | exact Hk].
Qed.
End Relate.

(** ** Where a credit-card match ends *)

Lemma card_sep_class c :
  in_class [ch " "; ch "-"] c = is_sep c.
Proof. destruct c as [[] [] [] [] [] [] [] []]; reflexivity. Qed.

Lemma sep_not_word c : is_sep c = true -> is_word c = false.
Proof.
  destruct c as [[] [] [] [] [] [] [] []]; vm_compute; intros; congruence.
Qed.

Lemma sep_not_digit c : is_sep c = true -> is_digit c = false.
Proof.
  destruct c as [[] [] [] [] [] [] [] []]; vm_compute; intros; congruence.
Qed.

Lemma digit_is_word c : is_digit c = true -> is_word c = true.
Proof. unfold is_word, is_digit. intros ->. reflexivity. Qed.

Lemma digit_class c : in_class [Digit] c = is_digit c.
Proof. simpl. apply orb_false_r. Qed.

Section CardTail.
Variable A : Type.
Variable k : cont A.
Hypothesis k_total : forall p s, k p s <> None.

(** the answer was given by [k] behind a digit *)
Let good (x : A) : Prop :=
  exists c s, is_digit c = true /\ k (Some c) s = Some x.

(** behind a digit and in front of a separator the continuation succeeds *)
Let eager (K : cont A) : Prop :=
  forall c c' s, is_digit c = true -> is_sep c' = true ->
                 K (Some c) (c' :: s) <> None.

Let exitk : cont A := fun p s => bt WordB p s k.
Let loop (n : nat) : cont A := fun p s => upto (bt card_item) true n p s exitk.

Lemma sepstar_eager (K : cont A) :
  eager K ->
  forall c s, is_digit c = true ->
              bt (lazy_star card_sep) (Some c) s K = K (Some c) s.
Proof.
  intros HK c s Hc.
  change (upto (bt card_sep) false (length s) (Some c) s K = K (Some c) s).
  destruct s as [|c' s]; [reflexivity|].
  cbn [length upto].
  destruct (K (Some c) (c' :: s)) eqn:E; [reflexivity|].
  cbn [bt card_sep]. rewrite card_sep_class.
  destruct (is_sep c') eqn:Es; [|reflexivity].
  exfalso. eapply HK; eauto.
Qed.

Lemma item_step (K : cont A) p s x :
  eager K -> bt card_item p s K = Some x ->
  exists c1 s1, s = c1 :: s1 /\ is_digit c1 = true /\ K (Some c1) s1 = Some x.
Proof.
  intros HK H.
  change (bt digit p s (fun p' s' => bt (lazy_star card_sep) p' s' K) = Some x)
    in H.
  destruct s as [|c1 s1]; [discriminate|].
  cbn [bt digit] in H. rewrite digit_class in H.
  destruct (is_digit c1) eqn:Ed; [|discriminate].
  rewrite sepstar_eager in H by auto.
  exists c1, s1. auto.
Qed.

Lemma item_step_any (K : cont A) p s x :
  bt card_item p s K = Some x -> exists p' s', K p' s' = Some x.
Proof.
  intros H. apply bt_sound in H; [|reflexivity].
  destruct H as (s0 & post & _ & _ & H). eauto.
Qed.

Lemma exitk_eager : eager exitk.
Proof.
  intros c c' s Hc Hs. unfold exitk. cbn [bt].
  unfold at_boundary. cbn [is_word_at hd_error].
  rewrite (digit_is_word _ Hc), (sep_not_word _ Hs). cbn [xorb negb].
  apply k_total.
Qed.

Lemma loop_eager n : eager (loop n).
Proof.
  destruct n as [|n]; intros c c' s Hc Hs; unfold loop; cbn [upto].
  - apply exitk_eager; auto.
  - destruct (bt card_item _ _ _); [discriminate|].
    apply exitk_eager; auto.
Qed.

Lemma exitk_good c s x :
  is_digit c = true -> exitk (Some c) s = Some x -> good x.
Proof.
  unfold exitk. cbn [bt]. intros Hc H.
  destruct (at_boundary (Some c) s); [|discriminate].
  exists c, s. auto.
Qed.

Lemma loop_good n : forall c s x,
  is_digit c = true -> loop n (Some c) s = Some x -> good x.
Proof.
  induction n as [|n IH]; intros c s x Hc H; unfold loop in H; cbn [upto] in H.
  - eapply exitk_good; eauto.
  - fold (loop n) in H.
    destruct (bt card_item (Some c) s (loop n)) as [a|] eqn:E.
    + inversion H; subst a.
      apply item_step in E; [|apply loop_eager].
      destruct E as (c1 & s1 & _ & Hc1 & E). eapply IH; eauto.
    + eapply exitk_good; eauto.
Qed.

Lemma times_good j n : forall p s x,
  times (bt card_item) (S n) p s (loop j) = Some x -> good x.
Proof.
  induction n as [|n IH]; intros p s x H; cbn [times] in H.
  - apply item_step in H.
    + destruct H as (c1 & s1 & _ & Hc1 & H). eapply loop_good; eauto.
    + intros c c' s0 Hc Hs. apply loop_eager; auto.
  - apply item_step_any in H. destruct H as (p' & s' & H).
    eapply IH. exact H.
Qed.

Lemma card_answer_behind_digit p t x :
  bt credit_card_re p t k = Some x -> good x.
Proof.
  intros H.
  change (bt WordB p t
            (fun p1 s1 => times (bt card_item) 13 p1 s1 (loop 3)) = Some x)
    in H.
  cbn [bt] in H. destruct (at_boundary p t); [|discriminate].
  eapply times_good; eauto.
Qed.
End CardTail.

Lemma firstn_exact (a b : str) : firstn (length a) (a ++ b) = a.
Proof.
  rewrite firstn_app, Nat.sub_diag, firstn_all. cbn [firstn].
  apply app_nil_r.
Qed.

Lemma app_same_length (a b a' b' : str) :
  a ++ b = a' ++ b' -> length a = length a' -> a = a' /\ b = b'.
Proof.
  intros E Hl. assert (Ea : a = a').
  { rewrite <- (firstn_exact a b), E, Hl. apply firstn_exact. }
  subst a'. split; auto. eapply app_inv_head; eauto.
Qed.

(** the match the matcher returns for the credit-card pattern ends with a
    digit: it never takes a separator it does not need *)
Lemma card_match_ends_with_digit p s post :
  match_at credit_card_re p (s ++ post) false = Some (length s) ->
  exists c, after p s = Some c /\ is_digit c = true.
Proof.
  intros H. unfold match_at in H. cbn [andb] in H.
  set (t := s ++ post) in *.
  rewrite (bt_rel _ _
             (fun ps : option char * str => length t - length (snd ps))
             credit_card_re p t _ (fun p' s' => Some (p', s'))) in H
    by reflexivity.
  destruct (bt credit_card_re p t (fun p' s' => Some (p', s')))
    as [[p1 s1]|] eqn:E; [|discriminate].
  cbn [option_map snd] in H.
  pose proof (card_answer_behind_digit _ (fun p' s' => Some (p', s'))
                ltac:(discriminate) p t (p1, s1) E) as (c & s2 & Hc & Hk).
  inversion Hk; subst p1 s2.
  apply bt_sound in E; [|reflexivity].
  destruct E as (s0 & post0 & Et & _ & Hk0).
  inversion Hk0 as [[Hp Hs]].
  assert (Hl : length s0 = length s).
  { inversion H as [Hn]. subst s1.
    pose proof (f_equal (@length char) Et) as El.
    rewrite length_app in El. unfold t in El. rewrite length_app in El.
    unfold t in Hn. rewrite length_app in Hn.
    unfold t. rewrite ?length_app. lia. }
  unfold t in Et. symmetry in Et.
  destruct (app_same_length _ _ _ _ Et Hl) as [-> _].
  exists c. auto.
Qed.

(** ** What the credit-card body matches *)

Lemma count_digits_app a b :
  count_digits (a ++ b) = count_digits a + count_digits b.
Proof. unfold count_digits. rewrite filter_app, length_app. reflexivity. Qed.

Lemma count_digits_seps s :
  Forall (fun c => is_sep c = true) s -> count_digits s = 0.
Proof.
  unfold count_digits. induction 1 as [|c s Hc _ IH]; [reflexivity|].
  simpl. rewrite (sep_not_digit _ Hc). exact IH.
Qed.

Lemma card_item_shape p s post :
  Mt card_item p s post ->
  exists c seps, s = c :: seps /\ is_digit c = true
                 /\ Forall (fun x => is_sep x = true) seps.
Proof.
  intros (s1 & s2 & -> & (c & -> & Hc) & n & _ & _ & HI).
  rewrite digit_class in Hc.
  exists c, s2. repeat split; auto.
  eapply iterM_Forall; [|exact HI].
  intros q s0 t (x & -> & Hx). rewrite card_sep_class in Hx.
  repeat constructor; auto.
Qed.

Lemma card_items_shape n : forall p s post,
  iterM (Mt card_item) n p s post ->
  count_digits s = n
  /\ Forall (fun c => is_digit c = true \/ is_sep c = true) s
  /\ (0 < n -> exists c, hd_error s = Some c /\ is_digit c = true).
Proof.
  induction n as [|n IH]; cbn [iterM]; intros p s post H.
  - subst s. repeat split; auto. lia.
  - destruct H as (s1 & s2 & -> & H1 & H2).
    apply card_item_shape in H1. destruct H1 as (c & seps & -> & Hc & Hs).
    apply IH in H2. destruct H2 as (Hn & Hf & _).
    repeat split.
    + change ((c :: seps) ++ s2) with ([c] ++ seps ++ s2).
      rewrite !count_digits_app, (count_digits_seps _ Hs), Hn.
      unfold count_digits. simpl. rewrite Hc. reflexivity.
    + apply Forall_app; split; auto.
      constructor; auto.
      eapply Forall_impl; [|exact Hs]. auto.
    + intros _. exists c. auto.
Qed.

Lemma card_body_shape p s post :
  Mt credit_card_body p s post ->
  Forall (fun c => is_digit c = true \/ is_sep c = true) s
  /\ 13 <= count_digits s <= 16
  /\ exists c, hd_error s = Some c /\ is_digit c = true.
Proof.
  intros (n & Hlo & Hhi & HI).
  apply card_items_shape in HI. destruct HI as (Hn & Hf & Hh).
  repeat split; auto; try lia. apply Hh. lia.
Qed.

(** ** A digit run next to a letter *)

Lemma letter_unused c : letter c = true -> uses credit_card_body c = false.
Proof.
  unfold letter. intros H. apply andb_true_iff in H. destruct H as [Hw Hd].
  apply negb_true_iff in Hd.
  destruct (uses credit_card_body c) eqn:E; [|reflexivity].
  rewrite (word_card_char_is_digit c Hw E) in Hd. discriminate.
Qed.

Lemma letter_word c : letter c = true -> is_word c = true.
Proof. unfold letter. intros H. apply andb_true_iff in H. tauto. Qed.

Lemma digit_word_char c : is_digit c = true -> is_word c = true.
Proof. unfold is_word, is_digit. intros ->. reflexivity. Qed.

Lemma word_behind q s :
  s <> [] -> Forall (fun c => is_word c = true) s ->
  is_word_at (after q s) = true.
Proof.
  intros Hs Hf. destruct (after q s) as [z|] eqn:E.
  - apply after_In in E; auto. rewrite Forall_forall in Hf. simpl. auto.
  - exfalso. destruct s as [|c s]; [congruence|]. simpl in E. clear - E.
    revert c E. induction s; simpl; intros; [discriminate | eauto].
Qed.

Lemma word_ahead l c r :
  Forall (fun x => is_word x = true) l -> is_word c = true ->
  is_word_at (hd_error (l ++ c :: r)) = true.
Proof. intros Hf Hc. destruct l; simpl; [auto | inversion Hf; auto]. Qed.

Lemma no_boundary p t :
  is_word_at p = true -> is_word_at (hd_error t) = true ->
  at_boundary p t = true -> False.
Proof. unfold at_boundary. intros -> ->. discriminate. Qed.

(** A credit-card match does not touch a digit run that stands next to a
    letter: it lies before the run or behind it. *)
Lemma run_not_overlapped pre run post a s post' :
  Forall (fun c => is_digit c = true) run -> run <> [] ->
  adjacent_to_letter pre post ->
  pre ++ run ++ post = a ++ s ++ post' ->
  Mt credit_card_re (after None a) s post' ->
  (exists x, pre = a ++ s ++ x) \/ (exists y, a = pre ++ run ++ y).
Proof.
  intros Hrun Hne Hadj E HM.
  assert (Hs : s <> []) by
    (eapply anchor_hit_nonempty; [apply (detectors_ok CREDIT_CARD)|exact HM]).
  pose proof (anchor_hit_uses _ _ _ _ HM) as Hu.
  destruct (proj1 (Mt_anchor _ _ _ _) HM) as (B1 & Hb & B2).
  apply card_body_shape in Hb. destruct Hb as (_ & _ & d0 & Hd0 & Dd0).
  assert (Hrw : Forall (fun c => is_word c = true) run)
    by (eapply Forall_impl; [|exact Hrun]; apply digit_word_char).
  assert (Hin : forall c, letter c = true -> In c s -> False).
  { intros c Hc Hi. rewrite Forall_forall in Hu.
    pose proof (Hu c Hi) as Hc'. cbv beta in Hc'.
    rewrite (letter_unused c Hc) in Hc'. discriminate. }
  (* the end of a match does not stand in front of a word character *)
  assert (Hend : forall l l2 t, s = l ++ l2 -> l2 <> [] ->
                   Forall (fun c => is_word c = true) l2 ->
                   post' = t -> is_word_at (hd_error t) = true -> False).
  { intros l l2 t -> Hl2 Hw <- Ht.
    apply (no_boundary (after (after None a) (l ++ l2)) post'); auto.
    rewrite after_app. apply word_behind; auto. }
  (* nor does its start stand behind one *)
  assert (Hstart : is_word_at (after None a) = true -> False).
  { intros Ha. apply (no_boundary (after None a) (s ++ post')); auto.
    rewrite hd_error_app by auto. rewrite Hd0. simpl.
    apply digit_word_char, Dd0. }
  apply app_eq_app in E. destruct E as (l & [[Epre E]|[Ea E]]).
  - (* the match starts in [pre] *)
    apply app_eq_app in E. destruct E as (l2 & [[Es E]|[El E]]);
      [|left; exists l2; rewrite Epre, El; reflexivity].
    destruct l2 as [|d l2].
    { left. exists []. rewrite app_nil_r in Es. subst l.
      rewrite app_nil_r. exact Epre. }
    exfalso. destruct Hadj as [(c & Hc & Lc)|(c & Hc & Lc)].
    + (* a letter ends [pre] *)
      destruct l as [|cl l].
      * rewrite app_nil_r in Epre. subst a. apply Hstart.
        rewrite Hc. simpl. apply letter_word, Lc.
      * rewrite Epre, after_app in Hc.
        apply after_In in Hc; [|discriminate].
        apply (Hin c Lc). rewrite Es. apply in_or_app; auto.
    + (* a letter begins [post] *)
      destruct post as [|c' post0]; [discriminate|].
      simpl in Hc. inversion Hc; subst c'.
      symmetry in E. apply app_eq_app in E.
      destruct E as (l3 & [[E1 E2]|[E1 E2]]).
      * (* d :: l2 = run ++ l3 *)
        destruct l3 as [|c3 l3].
        -- rewrite app_nil_r in E1. simpl in E2.
           apply (Hend l (d :: l2) (c :: post0) Es); try discriminate.
           ++ rewrite E1. exact Hrw.
           ++ symmetry. exact E2.
           ++ simpl. apply letter_word, Lc.
        -- simpl in E2. inversion E2; subst c3.
           apply (Hin c Lc). rewrite Es, E1.
           apply in_or_app; right. apply in_or_app; right; left; auto.
      * (* run = (d :: l2) ++ l3 *)
        rewrite E1 in Hrw. apply Forall_app in Hrw. destruct Hrw as [W1 W2].
        apply (Hend l (d :: l2) (l3 ++ c :: post0) Es); try discriminate;
          auto.
        apply word_ahead; auto. apply letter_word, Lc.
  - (* the match starts at or behind the start of the run *)
    apply app_eq_app in E. destruct E as (l2 & [[Er E]|[El E]]).
    + destruct l2 as [|d l2].
      { right. exists []. rewrite app_nil_r in Er. subst l.
        rewrite app_nil_r. exact Ea. }
      exfalso. rewrite Er in Hrw. apply Forall_app in Hrw.
      destruct Hrw as [W1 W2].
      destruct l as [|cl l].
      * rewrite app_nil_r in Ea. subst a. cbn [app] in Er.
        destruct Hadj as [(c & Hc & Lc)|(c & Hc & Lc)].
        -- apply Hstart. rewrite Hc. simpl. apply letter_word, Lc.
        -- destruct post as [|c' post0]; [discriminate|].
           simpl in Hc. inversion Hc; subst c'.
           apply app_eq_app in E. destruct E as (l3 & [[E1 E2]|[E1 E2]]).
           ++ (* s = (d :: l2) ++ l3 *)
              destruct l3 as [|c3 l3].
              ** rewrite app_nil_r in E1. simpl in E2.
                 apply (Hend [] s (c :: post0)); auto.
                 --- rewrite E1. exact W2.
                 --- simpl. apply letter_word, Lc.
              ** simpl in E2. inversion E2; subst c3.
                 apply (Hin c Lc). rewrite E1.
                 apply in_or_app; right; left; auto.
           ++ (* d :: l2 = s ++ l3 *)
              rewrite E1 in W2. apply Forall_app in W2.
              destruct W2 as [W3 W4].
              apply (Hend [] s (l3 ++ c :: post0)); auto.
              apply word_ahead; auto. apply letter_word, Lc.
      * apply Hstart. rewrite Ea, after_app.
        apply word_behind; [discriminate | exact W1].
    + right. exists l2. rewrite Ea, El. reflexivity.
Qed.

(** C8. A run of 13 to 16 digits that stands next to an alphanumeric
    character which is not a digit (a letter or "_" ends the text before the
    run or begins the text behind it) is not matched by the credit-card
    detector, wherever the run stands in the text: every span the detector
    replaces lies before the run or behind it.  When the rest of the text
    holds no digit, [sanitize_text] with only credit-card detection enabled
    returns the text unchanged. *)
Theorem embedded_digit_run_not_matched pre run post :
  Forall (fun c => is_digit c = true) run ->
  13 <= length run <= 16 ->
  adjacent_to_letter pre post ->
  (forall ps1 mt ps2,
      scan credit_card_re None (pre ++ run ++ post) 0 = ps1 ++ Hit mt :: ps2 ->
      (exists x, pre = unscan ps1 ++ mt ++ x)
      \/ (exists y, unscan ps1 = pre ++ run ++ y))
  /\ (forall config tmpl,
         remove_ssn config = false -> remove_phone config = false ->
         remove_email config = false -> remove_credit_card config = true ->
         compile_repl (redact_char config) = Ok tmpl ->
         Forall (fun c => is_digit c = false) (pre ++ post) ->
         sanitize_text (pre ++ run ++ post) config = Ok (pre ++ run ++ post)).
Proof.
  intros Hrun Hlen Hadj.
  assert (Hne : run <> []) by (destruct run; [simpl in Hlen; lia | discriminate]).
  split.
  - intros ps1 mt ps2 E.
    apply (scan_hits credit_card_re eq_refl eq_refl
             (S (length (pre ++ run ++ post)))) in E; [|lia].
    destruct E as (Et & HM & _).
    eapply run_not_overlapped; eauto.
  - intros config tmpl H1 H2 H3 H4 Hc Hnd.
    assert (Hf : free credit_card_re None (pre ++ run ++ post)).
    { intros a s post' E HM.
      pose proof HM as HM'. apply Mt_anchor in HM'.
      destruct HM' as (_ & Hb & _).
      apply card_body_shape in Hb. destruct Hb as (_ & _ & d0 & Hd0 & Dd0).
      assert (Hds : In d0 s) by (destruct s; inversion Hd0; left; auto).
      apply Forall_app in Hnd. destruct Hnd as [Hn1 Hn2].
      rewrite Forall_forall in Hn1, Hn2.
      destruct (run_not_overlapped pre run post a s post' Hrun Hne Hadj E HM)
        as [(x & Ex)|(y & Ey)].
      - rewrite (Hn1 d0) in Dd0; [discriminate|].
        rewrite Ex. apply in_or_app; right. apply in_or_app; auto.
      - rewrite Ey, <- !app_assoc in E.
        apply app_inv_head in E. apply app_inv_head in E.
        rewrite (Hn2 d0) in Dd0; [discriminate|].
        rewrite E. apply in_or_app; right. apply in_or_app; auto. }
    unfold sanitize_text, re_sub. rewrite H1, H2, H3, H4, Hc. cbn [bind].
    rewrite free_scan by (auto; reflexivity).
    rewrite render_keep. reflexivity.
Qed.

Lemma embedded_digit_run_not_matched_witness :
  let pre := txt "ref abc" in
  let run := txt "123456789012345" in
  let post := txt " ok" in
  (forall ps1 mt ps2,
      scan credit_card_re None (pre ++ run ++ post) 0 = ps1 ++ Hit mt :: ps2 ->
      (exists x, pre = unscan ps1 ++ mt ++ x)
      \/ (exists y, unscan ps1 = pre ++ run ++ y))
  /\ (forall config tmpl,
         remove_ssn config = false -> remove_phone config = false ->
         remove_email config = false -> remove_credit_card config = true ->
         compile_repl (redact_char config) = Ok tmpl ->
         Forall (fun c => is_digit c = false) (pre ++ post) ->
         sanitize_text (pre ++ run ++ post) config = Ok (pre ++ run ++ post)).
Proof.
  intros pre run post.
  apply (embedded_digit_run_not_matched pre run post).
  - repeat constructor.
  - simpl; lia.
  - left. exists "c"%char. split; reflexivity.
Defined.

Example embedded_digit_run_examples :
  let config := mkConfig "input.txt" "output.txt" (txt "<REDACTED>")
                  false false false true in
  sanitize_text (txt "abc123456789012345xyz") config
  = Ok (txt "abc123456789012345xyz")
  /\ sanitize_text (txt "abc1234567890123 ok") config
     = Ok (txt "abc1234567890123 ok")
  /\ sanitize_text (txt "x1234567890123 4111 1111 1111 1111") config
     = Ok (txt "x1234567890123 <REDACTED>").
Proof. repeat split; vm_compute; reflexivity. Qed.

(** * Further properties of [sanitize_text] *)

(** ** Texts no detector can match *)

Lemma all_chars_complete c : In c all_chars.
Proof.
  unfold all_chars. rewrite <- (ascii_nat_embedding c).
  apply in_map, in_seq. pose proof (nat_ascii_bounded c). lia.
Qed.

Lemma iterM_Exists (M : option char -> str -> str -> Prop) (P : char -> Prop) n :
  forall p s post,
    (forall q s0 t, M q s0 t -> Exists P s0) -> 0 < n ->
    iterM M n p s post -> Exists P s.
Proof.
  destruct n as [|n]; intros p s post HP Hn H; [lia|].
  destruct H as (a & b & -> & HM & _).
  apply Exists_app. left. eauto.
Qed.

Lemma Mt_demands P r :
  demands P r = true ->
  forall p s post, Mt r p s post -> Exists (fun c => P c = true) s.
Proof.
  induction r as [cls| |r1 IH1 r2 IH2|g lo hi r1 IH];
    intros Hd p s post H; cbn [demands] in Hd; cbn [Mt] in H.
  - destruct H as (c & -> & Hc). rewrite forallb_forall in Hd.
    pose proof (Hd c (all_chars_complete c)) as Hi. rewrite Hc in Hi.
    constructor. exact Hi.
  - discriminate.
  - destruct H as (s1 & s2 & -> & H1 & H2). apply Exists_app.
    apply orb_true_iff in Hd. destruct Hd as [Hd|Hd]; eauto.
  - apply andb_true_iff in Hd. destruct Hd as [Hlo Hd].
    apply Nat.ltb_lt in Hlo. destruct H as (n & Hn & _ & HI).
    apply (iterM_Exists (Mt r1) _ n p s post); [|lia|exact HI].
    intros q s0 t H0. eapply IH; eauto.
Qed.

Lemma free_without P b t :
  demands P b = true -> Forall (fun c => P c = false) t ->
  free (anchor b) None t.
Proof.
  intros Hd Hf a s post E HM.
  apply Mt_anchor in HM. destruct HM as (_ & HM & _).
  apply (Mt_demands P b Hd) in HM.
  apply Exists_exists in HM. destruct HM as (c & Hin & Hc).
  rewrite Forall_forall in Hf. rewrite (Hf c) in Hc; [discriminate|].
  rewrite E. apply in_or_app; right. apply in_or_app; auto.
Qed.

Lemma re_sub_free b m tm t :
  body_ok b = true -> compile_repl m = Ok tm ->
  free (anchor b) None t -> re_sub (anchor b) m t = Ok t.
Proof.
  intros Hb Hc Hf. unfold re_sub. rewrite Hc. cbn [bind].
  rewrite free_scan; auto using anchor_wf, anchor_nonnull.
  rewrite render_keep. reflexivity.
Qed.

Lemma iterM_count (M : option char -> str -> str -> Prop) (P : char -> bool)
  (k : nat) n :
  forall p s post,
    (forall q s0 t, M q s0 t -> k <= length (filter P s0)) ->
    iterM M n p s post -> n * k <= length (filter P s).
Proof.
  induction n as [|n IH]; cbn [iterM]; intros p s post HM H; [simpl; lia|].
  destruct H as (a & b & -> & Ha & Hb).
  apply HM in Ha. apply IH in Hb; auto.
  rewrite filter_app, length_app. simpl. lia.
Qed.

Lemma Mt_least P r :
  forall p s post, Mt r p s post -> least P r <= length (filter P s).
Proof.
  induction r as [cls| |r1 IH1 r2 IH2|g lo hi r1 IH];
    intros p s post H; cbn [least]; cbn [Mt] in H.
  - destruct H as (c & -> & Hc).
    destruct (forallb _ all_chars) eqn:E; [|lia].
    rewrite forallb_forall in E.
    pose proof (E c (all_chars_complete c)) as Hi. rewrite Hc in Hi.
    simpl in Hi. simpl. rewrite Hi. simpl. lia.
  - lia.
  - destruct H as (s1 & s2 & -> & H1 & H2).
    apply IH1 in H1. apply IH2 in H2.
    rewrite filter_app, length_app. lia.
  - destruct H as (n & Hn & _ & HI).
    apply (iterM_count (Mt r1) P (least P r1)) in HI; [|intros; eauto].
    nia.
Qed.

Lemma free_few P b t :
  length (filter P t) < least P b -> free (anchor b) None t.
Proof.
  intros Hl a s post E HM.
  apply Mt_anchor in HM. destruct HM as (_ & HM & _).
  apply (Mt_least P) in HM.
  rewrite E, !filter_app, !length_app in Hl. lia.
Qed.

(** A text with fewer than nine digits and no "@" is returned unchanged,
    whatever the configuration, as long as the marker is accepted as a
    template: an email needs an "@", an SSN nine digits, a phone number ten
    and a card number thirteen. *)
Theorem few_digits_no_at_unchanged text config tm :
  compile_repl (redact_char config) = Ok tm ->
  count_digits text < 9 ->
  Forall (fun c => is_at c = false) text ->
  sanitize_text text config = Ok text.
Proof.
  intros Hc Hd Ha. unfold count_digits in Hd.
  pose proof (re_sub_free ssn_body _ tm text eq_refl Hc
                (free_few is_digit ssn_body text
                   ltac:(change (least is_digit ssn_body) with 9; lia)))
    as E1.
  pose proof (re_sub_free phone_body _ tm text eq_refl Hc
                (free_few is_digit phone_body text
                   ltac:(change (least is_digit phone_body) with 10; lia)))
    as E2.
  pose proof (re_sub_free email_body _ tm text eq_refl Hc
                (free_without is_at email_body text eq_refl Ha)) as E3.
  pose proof (re_sub_free credit_card_body _ tm text eq_refl Hc
                (free_few is_digit credit_card_body text
                   ltac:(change (least is_digit credit_card_body) with 13;
                         lia)))
    as E4.
  unfold sanitize_text, ssn_re, phone_re, email_re, credit_card_re.
  destruct (remove_ssn config), (remove_phone config),
    (remove_email config), (remove_credit_card config);
    rewrite ?E1; cbn [bind]; rewrite ?E2; cbn [bind];
    rewrite ?E3; cbn [bind]; rewrite ?E4; reflexivity.
Qed.

Lemma few_digits_no_at_unchanged_witness :
  sanitize_text (txt "Call 555-1234 (before noon) - thanks.") default_config
  = Ok (txt "Call 555-1234 (before noon) - thanks.").
Proof.
  apply (few_digits_no_at_unchanged _ _ [Literal (txt "<REDACTED>")]).
  - reflexivity.
  - vm_compute. lia.
  - repeat constructor.
Defined.

(** ** What is left after a run *)

Lemma occurs_of_free r :
  wf r = true -> forall t p, free r p t -> occurs r p t = false.
Proof.
  intros W. induction t as [|c t IH]; intros p Hf; cbn [occurs].
  - destruct (match_at r p [] false) as [n|] eqn:E; [|reflexivity].
    exfalso. apply match_at_sound in E; auto.
    destruct E as (s & post & E & _ & HM). apply (Hf [] s post); auto.
  - destruct (match_at r p (c :: t) false) as [n|] eqn:E.
    + exfalso. apply match_at_sound in E; auto.
      destruct E as (s & post & E & _ & HM). apply (Hf [] s post); auto.
    + apply IH. intros a s post E' HM.
      apply (Hf (c :: a) s post); [rewrite E'; reflexivity | exact HM].
Qed.

(** With a marker as in the idempotence theorem (no backslash, no match
    inside, ends no detector accepts), the output of a run holds no match
    of any enabled detector. *)
Theorem output_has_no_match text config out :
  inert_marker (redact_char config) = true ->
  sanitize_text text config = Ok out ->
  forall c, enabled config c = true -> occurs (pattern c) None out = false.
Proof.
  intros Hm Hs.
  destruct (inert_marker_facts _ Hm) as (Hc & h & z & Hh & Hz & Hall).
  rewrite (sanitize_text_literal text config Hc) in Hs.
  set (m := redact_char config) in *.
  assert (K : forall c c' en t,
             free (pattern c') None t ->
             free (pattern c') None (lit_pass en (body_of c) m t)).
  { intros c c' en t Hf. destruct (Hall c') as (U1 & U2 & F).
    apply (pass_keeps_free (body_of c) (body_of c') m h z); auto;
      apply detectors_ok. }
  assert (Mk : forall c t,
             free (pattern c) None (lit_pass true (body_of c) m t)).
  { intros c t. destruct (Hall c) as (U1 & U2 & F).
    apply (pass_makes_free (body_of c) (body_of c) m h z); auto;
      apply detectors_ok. }
  inversion Hs as [Ho]. clear Hs.
  intros c Hen. apply occurs_of_free.
  { apply anchor_wf, detectors_ok. }
  destruct c; cbn [enabled] in Hen; rewrite Hen.
  - apply (K CREDIT_CARD SSN), (K EMAIL SSN), (K PHONE SSN), (Mk SSN).
  - apply (K CREDIT_CARD PHONE), (K EMAIL PHONE), (Mk PHONE).
  - apply (K CREDIT_CARD EMAIL), (Mk EMAIL).
  - apply (Mk CREDIT_CARD).
Qed.

Lemma output_has_no_match_witness :
  let out := txt "Contact John at <REDACTED> or <REDACTED>. SSN: <REDACTED>." in
  occurs (pattern SSN) None out = false
  /\ occurs (pattern PHONE) None out = false
  /\ occurs (pattern EMAIL) None out = false
  /\ occurs (pattern CREDIT_CARD) None out = false.
Proof.
  intros out.
  pose proof (output_has_no_match
                (txt "Contact John at 555-123-4567 or john@example.com. SSN: 123-45-6789.")
                default_config out eq_refl eq_refl) as H.
  repeat split; apply H; reflexivity.
Defined.

(** ** The replaced spans *)

(** Every span a detector replaces is not empty, stands at a word boundary at
    both ends, and is made of characters the sets of its pattern accept; the
    spans and the characters kept are the text, in order. *)
Theorem replaced_spans_are_anchored c text pre mt post :
  scan (pattern c) None text 0 = pre ++ Hit mt :: post ->
  mt <> []
  /\ text = unscan pre ++ mt ++ unscan post
  /\ at_boundary (after None (unscan pre)) (mt ++ unscan post) = true
  /\ at_boundary (after None (unscan pre ++ mt)) (unscan post) = true
  /\ Forall (fun x => uses (body_of c) x = true) mt.
Proof.
  intros E.
  apply (scan_hits (pattern c) (anchor_wf _ (detectors_ok c))
           (anchor_nonnull _ (detectors_ok c)) (S (length text)))
    in E; [|lia].
  destruct E as (Et & HM & _).
  pose proof (anchor_hit_nonempty _ _ _ _ (detectors_ok c) HM) as Hne.
  pose proof (anchor_hit_uses _ _ _ _ HM) as Hu.
  destruct (proj1 (Mt_anchor _ _ _ _) HM) as (B1 & _ & B2).
  rewrite after_app. auto.
Qed.

Lemma replaced_spans_are_anchored_witness :
  let mt := txt "john@example.com" in
  mt <> []
  /\ txt "mail john@example.com now"
     = unscan (map Keep (txt "mail ")) ++ mt ++ unscan (map Keep (txt " now"))
  /\ at_boundary (after None (unscan (map Keep (txt "mail "))))
       (mt ++ unscan (map Keep (txt " now"))) = true
  /\ at_boundary (after None (unscan (map Keep (txt "mail ")) ++ mt))
       (unscan (map Keep (txt " now"))) = true
  /\ Forall (fun x => uses (body_of EMAIL) x = true) mt.
Proof.
  intros mt.
  apply (replaced_spans_are_anchored EMAIL (txt "mail john@example.com now")
           (map Keep (txt "mail ")) mt (map Keep (txt " now"))).
  vm_compute. reflexivity.
Defined.

Lemma no_match_at_nonword_start b c t adv :
  is_word c = false -> match_at (anchor b) None (c :: t) adv = None.
Proof.
  intros Hc. unfold match_at, anchor. cbn [bt].
  unfold at_boundary. cbn [is_word_at hd_error]. rewrite Hc. reflexivity.
Qed.

Lemma re_sub_keeps_nonword_head b m c t out :
  is_word c = false -> re_sub (anchor b) m (c :: t) = Ok out ->
  exists out', out = c :: out'.
Proof.
  intros Hc H. unfold re_sub in H.
  destruct (compile_repl m) as [tm|]; [|discriminate].
  cbn [bind] in H. inversion H as [Ho].
  cbn [scan]. rewrite (no_match_at_nonword_start b c t false Hc).
  rewrite render_cons. cbn [render_piece app]. eauto.
Qed.

(** A first character that is not alphanumeric (nor "_") is never
    replaced: no pattern can match from the start of the text at such a
    character, so the output begins with it.  That holds for the "+" of an
    international phone number and the "(" of an area code. *)
Theorem nonword_first_char_is_kept c t config out :
  is_word c = false ->
  sanitize_text (c :: t) config = Ok out ->
  hd_error out = Some c.
Proof.
  intros Hc H. unfold sanitize_text in H.
  assert (Step : forall en b t1 (k : str -> result str),
             (forall t2, k (c :: t2) = Ok out -> hd_error out = Some c) ->
             (x <- (if en : bool
                    then re_sub (anchor b) (redact_char config) (c :: t1)
                    else Ok (c :: t1)) ;; k x) = Ok out ->
             hd_error out = Some c).
  { intros en b t1 k Hk Hb. destruct en.
    - destruct (re_sub (anchor b) (redact_char config) (c :: t1)) as [r|] eqn:E;
        [|discriminate].
      apply re_sub_keeps_nonword_head in E; auto. destruct E as (o & ->).
      eapply Hk; eauto.
    - eapply Hk; eauto. }
  apply (Step _ ssn_body t _) in H; auto. intros t2.
  apply (Step _ phone_body t2). intros t3.
  apply (Step _ email_body t3). intros t4.
  apply (Step _ credit_card_body t4). intros t5 E.
  inversion E. reflexivity.
Qed.

Lemma nonword_first_char_is_kept_witness :
  hd_error (txt "(<REDACTED>") = Some "("%char.
Proof.
  apply (nonword_first_char_is_kept "("%char (txt "555) 123-4567")
           default_config); vm_compute; reflexivity.
Defined.

Lemma render_group0 ps : render [Group0] ps = unscan ps.
Proof.
  unfold render, unscan. f_equal. apply map_ext.
  intros [c|m]; [reflexivity|]. cbn [render_piece]. unfold expand.
  simpl. apply app_nil_r.
Qed.

(** The marker is a replacement template, not a literal: with the marker
    "\g<0>" every match is replaced by itself, and [sanitize_text] returns
    every text unchanged, whichever detectors are enabled. *)
Theorem whole_match_marker_is_identity text config :
  redact_char config = txt "\g<0>" ->
  sanitize_text text config = Ok text.
Proof.
  intros Hm.
  assert (Hp : forall c t, re_sub (pattern c) (redact_char config) t = Ok t).
  { intros c t. unfold re_sub. rewrite Hm.
    change (compile_repl (txt "\g<0>")) with (Ok [Group0]). cbn [bind].
    rewrite render_group0.
    rewrite (unscan_scan (pattern c) (anchor_wf _ (detectors_ok c))
               (anchor_nonnull _ (detectors_ok c)) (S (length t)));
      auto. }
  pose proof (Hp SSN text) as E1. pose proof (Hp PHONE text) as E2.
  pose proof (Hp EMAIL text) as E3. pose proof (Hp CREDIT_CARD text) as E4.
  unfold pattern, body_of in E1, E2, E3, E4.
  unfold sanitize_text, ssn_re, phone_re, email_re, credit_card_re.
  destruct (remove_ssn config), (remove_phone config),
    (remove_email config), (remove_credit_card config);
    rewrite ?E1; cbn [bind]; rewrite ?E2; cbn [bind];
    rewrite ?E3; cbn [bind]; rewrite ?E4; reflexivity.
Qed.

Lemma whole_match_marker_is_identity_witness :
  sanitize_text (txt "SSN: 123-45-6789")
    (mkConfig "input.txt" "output.txt" (txt "\g<0>") true true true true)
  = Ok (txt "SSN: 123-45-6789").
Proof. apply whole_match_marker_is_identity. reflexivity. Defined.

(** ** The SSN detector *)

Lemma hyphen_class c : in_class [ch "-"] c = is_hyphen c.
Proof. simpl. apply orb_false_r. Qed.

Lemma iter_digits n : forall p s post,
  iterM (Mt digit) n p s post ->
  length s = n /\ Forall (fun c => is_digit c = true) s.
Proof.
  induction n as [|n IH]; cbn [iterM]; intros p s post H.
  - subst s. auto.
  - destruct H as (s1 & s2 & -> & (c & -> & Hc) & H2).
    apply IH in H2. destruct H2 as [Hl Hf].
    rewrite digit_class in Hc. simpl. split; [lia | constructor; auto].
Qed.

Lemma exactly_digits n p s post :
  Mt (exactly n digit) p s post ->
  length s = n /\ Forall (fun c => is_digit c = true) s.
Proof.
  intros (k & Hlo & Hhi & HI). assert (k = n) by lia. subst k.
  eapply iter_digits; eauto.
Qed.

Lemma ssn_body_shape p s post : Mt ssn_body p s post -> is_ssn s = true.
Proof.
  intros H.
  change (Mt (Cat (exactly 3 digit)
                (Cat (Chr [ch "-"])
                   (Cat (exactly 2 digit)
                      (Cat (Chr [ch "-"]) (exactly 4 digit))))) p s post) in H.
  cbn [Mt] in H.
  destruct H as (s1 & r1 & -> & H1 & s2 & r2 & -> & (x & -> & Hx)
                 & s3 & r3 & -> & H3 & s4 & r4 & -> & (y & -> & Hy) & H5).
  apply (exactly_digits 3) in H1. apply (exactly_digits 2) in H3.
  apply (exactly_digits 4) in H5.
  destruct H1 as [L1 F1], H3 as [L3 F3], H5 as [L5 F5].
  rewrite hyphen_class in Hx, Hy.
  destruct s1 as [|a [|b [|c [|? ?]]]]; try discriminate.
  destruct s3 as [|e [|f [|? ?]]]; try discriminate.
  destruct r4 as [|g [|h [|i [|j [|? ?]]]]]; try discriminate.
  repeat match goal with
         | H : Forall _ (_ :: _) |- _ => inversion H; subst; clear H
         end.
  cbn [app is_ssn].
  repeat match goal with H : _ = true |- _ => rewrite H; clear H end.
  reflexivity.
Qed.

(** Every span the SSN detector replaces has the shape [ddd-dd-dddd]:
    eleven characters, digits but for the two hyphens. *)
Theorem ssn_spans_have_ssn_shape text pre mt post :
  scan ssn_re None text 0 = pre ++ Hit mt :: post -> is_ssn mt = true.
Proof.
  intros E.
  apply (scan_hits ssn_re eq_refl eq_refl (S (length text))) in E; [|lia].
  destruct E as (_ & HM & _).
  apply Mt_anchor in HM. destruct HM as (_ & HM & _).
  eapply ssn_body_shape; eauto.
Qed.

Lemma ssn_spans_have_ssn_shape_witness : is_ssn (txt "123-45-6789") = true.
Proof.
  apply (ssn_spans_have_ssn_shape (txt "SSN: 123-45-6789.")
           (map Keep (txt "SSN: ")) (txt "123-45-6789") (map Keep (txt "."))).
  vm_compute. reflexivity.
Defined.

Lemma scan_nil r p :
  wf r = true -> nonnull r = true -> scan r p [] 0 = [].
Proof.
  intros W N.
  destruct (scan_cases r W N [] p)
    as [[_ Hs]|(seg & mt & rest & Et & Hmt & _)]; [exact Hs|].
  exfalso. symmetry in Et. apply app_eq_nil in Et. destruct Et as [_ Et].
  apply app_eq_nil in Et. destruct Et as [Et _]. auto.
Qed.

Lemma scan_whole r s :
  wf r = true -> nonnull r = true ->
  match_at r None s false = Some (length s) ->
  scan r None s 0 = [Hit s].
Proof.
  intros W N H. rewrite scan_0, H, firstn_all by auto. f_equal.
  rewrite <- (app_nil_r s) at 1. rewrite scan_skip. apply scan_nil; auto.
Qed.

Lemma ssn_match_whole s :
  is_ssn s = true -> match_at ssn_re None s false = Some (length s).
Proof.
  intros H.
  destruct s as [|a [|b [|c [|x [|e [|f [|y [|g [|h [|i [|j [|? ?]]]]]]]]]]]];
    try discriminate.
  cbn [is_ssn] in H.
  repeat match goal with
         | H : _ && _ = true |- _ =>
             apply andb_true_iff in H; destruct H
         end.
  assert (Wa : is_word a = true) by (apply digit_is_word; assumption).
  assert (Wj : is_word j = true) by (apply digit_is_word; assumption).
  unfold match_at, ssn_re, anchor, ssn_body, exactly.
  cbn [seq bt times upto extra Nat.sub digit].
  unfold at_boundary. cbn [is_word_at hd_error].
  rewrite !digit_class, !hyphen_class.
  repeat match goal with H : _ = true |- _ => rewrite H; clear H end.
  reflexivity.
Qed.

(** A text is replaced whole by the SSN detector exactly when it has the
    shape [ddd-dd-dddd]. *)
Theorem ssn_replaced_whole_iff s :
  scan ssn_re None s 0 = [Hit s] <-> is_ssn s = true.
Proof.
  split.
  - intros E.
    apply (scan_hits ssn_re eq_refl eq_refl (S (length s)) s None [] s [])
      in E; [|lia].
    destruct E as (_ & HM & _).
    apply Mt_anchor in HM. destruct HM as (_ & HM & _).
    eapply ssn_body_shape; eauto.
  - intros H. apply scan_whole; try reflexivity. apply ssn_match_whole, H.
Qed.

(** ** Runs of digits and the credit-card detector *)

Lemma digit_not_sep c : is_digit c = true -> is_sep c = false.
Proof.
  intros H. destruct (is_sep c) eqn:E; [|reflexivity].
  apply sep_not_digit in E. congruence.
Qed.

Section CardRun.
Variable A : Type.
Variable k : cont A.

Lemma sepstar_nosep (K : cont A) p s :
  (forall c s', s = c :: s' -> is_sep c = false) ->
  bt (lazy_star card_sep) p s K = K p s.
Proof.
  intros Hs.
  change (upto (bt card_sep) false (length s) p s K = K p s).
  destruct s as [|c s]; [reflexivity|].
  cbn [length upto]. destruct (K p (c :: s)); [reflexivity|].
  cbn [bt card_sep]. rewrite card_sep_class, (Hs c s eq_refl). reflexivity.
Qed.

Lemma item_digit (K : cont A) p c s :
  is_digit c = true ->
  (forall c' s', s = c' :: s' -> is_sep c' = false) ->
  bt card_item p (c :: s) K = K (Some c) s.
Proof.
  intros Hc Hs.
  change (bt digit p (c :: s)
            (fun p' s' => bt (lazy_star card_sep) p' s' K) = K (Some c) s).
  cbn [bt digit]. rewrite digit_class, Hc. apply sepstar_nosep, Hs.
Qed.

Lemma digits_head_not_sep s :
  Forall (fun c => is_digit c = true) s ->
  forall c s', s = c :: s' -> is_sep c = false.
Proof.
  intros Hf c s' ->. inversion Hf; subst. apply digit_not_sep. assumption.
Qed.

Lemma times_digits n : forall ds rest p (K : cont A),
  length ds = n -> Forall (fun c => is_digit c = true) (ds ++ rest) ->
  times (bt card_item) n p (ds ++ rest) K = K (after p ds) rest.
Proof.
  induction n as [|n IH]; intros ds rest p K Hl Hf.
  - destruct ds; [reflexivity | discriminate].
  - destruct ds as [|c ds]; [discriminate|].
    cbn [times app after]. inversion Hf; subst.
    rewrite item_digit;
      [apply IH; auto | assumption | eapply digits_head_not_sep; eauto].
Qed.

Lemma loop_digits j : forall ds p x,
  length ds <= j -> Forall (fun c => is_digit c = true) ds ->
  bt WordB (after p ds) [] k = Some x ->
  upto (bt card_item) true j p ds (fun p' s' => bt WordB p' s' k) = Some x.
Proof.
  induction j as [|j IH]; intros ds p x Hl Hf Hx.
  - destruct ds; [exact Hx | simpl in Hl; lia].
  - cbn [upto]. destruct ds as [|c ds].
    + cbn [after] in Hx. cbn [bt card_item digit]. exact Hx.
    + inversion Hf; subst.
      rewrite item_digit;
        [|assumption | eapply digits_head_not_sep; eauto].
      rewrite (IH ds (Some c) x); auto. simpl in Hl. lia.
Qed.

Lemma card_digits_match ds x :
  Forall (fun c => is_digit c = true) ds -> 13 <= length ds <= 16 ->
  k (after None ds) [] = Some x ->
  bt credit_card_re None ds k = Some x.
Proof.
  intros Hf Hl Hk.
  change (bt WordB None ds
            (fun p1 s1 =>
               times (bt card_item) 13 p1 s1
                 (fun p2 s2 =>
                    upto (bt card_item) true 3 p2 s2
                      (fun p' s' => bt WordB p' s' k))) = Some x).
  destruct ds as [|c0 ds0] eqn:Eds; [simpl in Hl; lia|].
  assert (Hw : at_boundary None (c0 :: ds0) = true).
  { inversion Hf; subst. unfold at_boundary. cbn [is_word_at hd_error].
    rewrite digit_is_word by assumption. reflexivity. }
  cbn [bt]. rewrite Hw. rewrite <- Eds in *. clear Hw.
  rewrite <- (firstn_skipn 13 ds) in Hf |- *.
  assert (L13 : length (firstn 13 ds) = 13) by (rewrite length_firstn; lia).
  assert (Lr : length (skipn 13 ds) <= 3) by (rewrite length_skipn; lia).
  rewrite times_digits; auto.
  apply Forall_app in Hf. destruct Hf as [Hf1 Hf2].
  apply loop_digits; auto.
  rewrite <- after_app, firstn_skipn.
  cbn [bt].
  assert (Hb : at_boundary (after None ds) [] = true).
  { rewrite Eds. destruct (after None (c0 :: ds0)) as [z|] eqn:Ez.
    - apply after_In in Ez; [|discriminate].
      unfold at_boundary. cbn [is_word_at hd_error].
      rewrite <- Eds in Ez.
      rewrite <- (firstn_skipn 13 ds) in Ez. apply in_app_or in Ez.
      rewrite Forall_forall in Hf1, Hf2.
      rewrite digit_is_word; [reflexivity|]. destruct Ez; auto.
    - exfalso. simpl in Ez. clear - Ez. revert c0 Ez.
      induction ds0; simpl; intros; [discriminate | eauto]. }
  rewrite Hb. exact Hk.
Qed.
End CardRun.

Lemma count_digits_all ds :
  Forall (fun c => is_digit c = true) ds -> count_digits ds = length ds.
Proof.
  unfold count_digits. induction 1 as [|c ds Hc _ IH]; [reflexivity|].
  simpl. rewrite Hc. simpl. f_equal. exact IH.
Qed.

(** in a text of alphanumeric characters a boundary-anchored span is the
    whole text *)
Lemma word_text_span_is_whole t a s post :
  Forall (fun c => is_word c = true) t ->
  t = a ++ s ++ post -> s <> [] ->
  at_boundary (after None a) (s ++ post) = true ->
  at_boundary (after (after None a) s) post = true ->
  a = [] /\ post = [].
Proof.
  intros Hw E Hs B1 B2. rewrite Forall_forall in Hw.
  destruct s as [|c0 s]; [congruence|]. split.
  - destruct a as [|ca a]; [reflexivity|]. exfalso.
    destruct (after None (ca :: a)) as [x|] eqn:Ex.
    + apply after_In in Ex; [|discriminate].
      unfold at_boundary in B1. simpl in B1.
      rewrite (Hw x), (Hw c0) in B1; [discriminate| |].
      * rewrite E. apply in_or_app; right; left; auto.
      * rewrite E. apply in_or_app; auto.
    + simpl in Ex. clear - Ex. revert ca Ex.
      induction a; simpl; intros; [discriminate | eauto].
  - destruct post as [|cp post]; [reflexivity|]. exfalso.
    destruct (after (after None a) (c0 :: s)) as [x|] eqn:Ex.
    + apply after_In in Ex; [|discriminate].
      unfold at_boundary in B2. simpl in B2.
      rewrite (Hw x), (Hw cp) in B2; [discriminate| |].
      * rewrite E. apply in_or_app; right. apply in_or_app; right; left; auto.
      * rewrite E. apply in_or_app; right. apply in_or_app; auto.
    + simpl in Ex. clear - Ex. revert c0 Ex.
      induction s; simpl; intros; [discriminate | eauto].
Qed.

(** No checksum and no context: with only credit-card detection enabled, a
    text made of digits alone is replaced whole when it has 13 to 16 digits
    and returned unchanged otherwise. *)
Theorem digit_run_replaced_by_length ds config tm :
  Forall (fun c => is_digit c = true) ds ->
  remove_ssn config = false -> remove_phone config = false ->
  remove_email config = false -> remove_credit_card config = true ->
  compile_repl (redact_char config) = Ok tm ->
  sanitize_text ds config
  = Ok (if (13 <=? length ds) && (length ds <=? 16)
        then expand tm ds else ds).
Proof.
  intros Hf H1 H2 H3 H4 Hc.
  unfold sanitize_text, re_sub. rewrite H1, H2, H3, H4, Hc. cbn [bind].
  destruct ((13 <=? length ds) && (length ds <=? 16)) eqn:El.
  - apply andb_true_iff in El. destruct El as [La Lb].
    apply Nat.leb_le in La. apply Nat.leb_le in Lb.
    rewrite scan_whole; try reflexivity.
    + unfold render. simpl. rewrite app_nil_r. reflexivity.
    + unfold match_at. apply card_digits_match; auto.
      cbn [andb]. rewrite Nat.sub_0_r. reflexivity.
  - rewrite free_scan; try reflexivity; [rewrite render_keep; reflexivity|].
    intros a s post E HM.
    assert (Hs : s <> []) by
      (eapply anchor_hit_nonempty; [apply (detectors_ok CREDIT_CARD)|exact HM]).
    apply Mt_anchor in HM. destruct HM as (B1 & HM & B2).
    assert (Hw : Forall (fun c => is_word c = true) ds)
      by (eapply Forall_impl; [|exact Hf]; apply digit_is_word).
    destruct (word_text_span_is_whole ds a s post Hw E Hs B1 B2) as [-> ->].
    simpl in E. rewrite app_nil_r in E. subst s.
    apply card_body_shape in HM. destruct HM as (_ & Hn & _).
    rewrite count_digits_all in Hn by assumption.
    apply andb_false_iff in El.
    destruct El as [El|El]; apply Nat.leb_gt in El; lia.
Qed.

Lemma digit_run_replaced_by_length_witness :
  sanitize_text (txt "1234567890123")
    (mkConfig "input.txt" "output.txt" (txt "<REDACTED>")
       false false false true)
  = Ok (txt "<REDACTED>").
Proof.
  apply (digit_run_replaced_by_length (txt "1234567890123")
           (mkConfig "input.txt" "output.txt" (txt "<REDACTED>")
              false false false true)
           [Literal (txt "<REDACTED>")]);
    try reflexivity.
  repeat constructor.
Defined.

(** ** The spans the credit-card detector matches *)

Lemma item_rejects A (K : cont A) q c s :
  is_digit c = false -> bt card_item q (c :: s) K = None.
Proof.
  intros Hc.
  change (bt digit q (c :: s)
            (fun p' s' => bt (lazy_star card_sep) p' s' K) = None).
  cbn [bt digit]. rewrite digit_class, Hc. reflexivity.
Qed.

Lemma sepstar_seps A (K : cont A) seps : forall t p,
  Forall (fun x => is_sep x = true) seps ->
  (forall q c s, is_sep c = true -> K q (c :: s) = None) ->
  (forall c r, t = c :: r -> is_sep c = false) ->
  bt (lazy_star card_sep) p (seps ++ t) K = K (after p seps) t.
Proof.
  induction seps as [|x seps IH]; intros t p Hf HK Ht.
  - apply sepstar_nosep. exact Ht.
  - inversion Hf as [|? ? Hx Hf']; subst.
    change (upto (bt card_sep) false (length ((x :: seps) ++ t)) p
              ((x :: seps) ++ t) K = K (after (Some x) seps) t).
    cbn [app length upto]. rewrite (HK p x (seps ++ t) Hx).
    cbn [bt card_sep]. rewrite card_sep_class, Hx.
    apply (IH t (Some x)); auto.
Qed.

Lemma card_groups_head n : forall head rest c r,
  card_groups n head ->
  (forall c' r', rest = c' :: r' -> is_sep c' = false) ->
  head ++ rest = c :: r -> is_sep c = false.
Proof.
  destruct n as [|n]; cbn [card_groups]; intros head rest c r Hg Hr E.
  - subst head. eapply Hr; eauto.
  - destruct Hg as (c0 & seps & rest0 & -> & Hc0 & _).
    inversion E; subst. apply digit_not_sep, Hc0.
Qed.

Lemma times_groups A (K : cont A) j n : forall head rest p,
  card_groups n head ->
  (forall c r, rest = c :: r -> is_sep c = false) ->
  times (bt card_item) (n + S j) p (head ++ rest) K
  = times (bt card_item) (S j) (after p head) rest K.
Proof.
  induction n as [|n IH]; cbn [card_groups]; intros head rest p Hg Hr.
  - subst head. reflexivity.
  - destruct Hg as (c & seps & rest0 & -> & Hc & Hs & Hg).
    cbn [Nat.add times app after].
    change (bt digit p (c :: (seps ++ rest0) ++ rest)
              (fun p' s' =>
                 bt (lazy_star card_sep) p' s'
                   (fun p1 s1 => times (bt card_item) (n + S j) p1 s1 K))
            = times (bt card_item) (S j) (after (Some c) (seps ++ rest0))
                rest K).
    cbn [bt digit]. rewrite digit_class, Hc, <- app_assoc.
    rewrite sepstar_seps; auto.
    + rewrite IH, after_app; auto.
    + intros q x s Hx. rewrite Nat.add_succ_r. cbn [times].
      apply item_rejects, sep_not_digit, Hx.
    + intros c' r'. apply (card_groups_head n rest0 rest); auto.
Qed.

Section CardSpan.
Variable A : Type.
Variable k : cont A.
Hypothesis k_total : forall p s, k p s <> None.

Lemma item_eager (K : cont A) p c s :
  (forall c0 c' s0, is_digit c0 = true -> is_sep c' = true ->
                    K (Some c0) (c' :: s0) <> None) ->
  is_digit c = true -> bt card_item p (c :: s) K = K (Some c) s.
Proof.
  intros HK Hc.
  change (bt digit p (c :: s)
            (fun p' s' => bt (lazy_star card_sep) p' s' K) = K (Some c) s).
  cbn [bt digit]. rewrite digit_class, Hc.
  apply sepstar_eager; auto.
Qed.

Lemma loop_tail ds : forall j c post x,
  is_digit c = true -> Forall (fun d => is_digit d = true) ds ->
  length ds <= j ->
  at_boundary (after (Some c) ds) post = true ->
  k (after (Some c) ds) post = Some x ->
  upto (bt card_item) true j (Some c) (ds ++ post)
    (fun p s => bt WordB p s k) = Some x.
Proof.
  induction ds as [|d ds IH]; intros j c post x Hc Hf Hl Hb Hk.
  - cbn [app after] in *.
    assert (Hexit : bt WordB (Some c) post k = Some x)
      by (cbn [bt]; rewrite Hb; exact Hk).
    destruct j as [|j]; cbn [upto]; [exact Hexit|].
    destruct post as [|y r].
    + cbn [bt card_item digit]. exact Hexit.
    + rewrite item_rejects; [exact Hexit|].
      unfold at_boundary in Hb. cbn [is_word_at hd_error] in Hb.
      rewrite (digit_is_word c Hc) in Hb.
      destruct (is_digit y) eqn:Ey; [|reflexivity].
      rewrite (digit_is_word y Ey) in Hb. discriminate.
  - inversion Hf; subst. destruct j as [|j]; [simpl in Hl; lia|].
    cbn [upto app].
    rewrite item_eager; auto.
    + rewrite (IH j d post x); auto. simpl in Hl. lia.
    + intros c0 c' s0 Hc0 Hc'. apply (loop_eager A k k_total j); auto.
Qed.

Lemma card_span_matched p s post x :
  at_boundary p (s ++ post) = true -> card_span s ->
  at_boundary (after p s) post = true ->
  k (after p s) post = Some x ->
  bt credit_card_re p (s ++ post) k = Some x.
Proof.
  intros B1 (head & tail & -> & Hg & Hf & Hl) B2 Hk.
  change (bt WordB p ((head ++ tail) ++ post)
            (fun p1 s1 =>
               times (bt card_item) (12 + 1) p1 s1
                 (fun p2 s2 =>
                    upto (bt card_item) true 3 p2 s2
                      (fun p' s' => bt WordB p' s' k))) = Some x).
  cbn [bt]. rewrite B1.
  destruct tail as [|d ds]; [simpl in Hl; lia|].
  inversion Hf; subst.
  rewrite <- app_assoc, times_groups; auto.
  - cbn [times app]. rewrite item_eager; auto.
    + apply loop_tail; auto.
      * simpl in Hl. lia.
      * rewrite after_app in B2. exact B2.
      * rewrite after_app in Hk. exact Hk.
    + intros c0 c' s0 Hc0 Hc'. apply (loop_eager A k k_total 3); auto.
  - intros c r E. inversion E; subst. apply digit_not_sep. assumption.
Qed.
End CardSpan.

Lemma card_span_match_at p s post :
  at_boundary p (s ++ post) = true -> card_span s ->
  at_boundary (after p s) post = true ->
  match_at credit_card_re p (s ++ post) false = Some (length s).
Proof.
  intros B1 Hs B2. unfold match_at.
  apply card_span_matched; auto.
  - intros q t. cbn [andb]. discriminate.
  - cbn [andb]. rewrite length_app, Nat.add_sub. reflexivity.
Qed.

Lemma iterM_groups n : forall p s post,
  iterM (Mt card_item) n p s post -> card_groups n s.
Proof.
  induction n as [|n IH]; cbn [iterM card_groups]; intros p s post H; auto.
  destruct H as (s1 & s2 & -> & H1 & H2).
  apply card_item_shape in H1. destruct H1 as (c & seps & -> & Hc & Hs).
  exists c, seps, s2. repeat split; eauto.
Qed.

Lemma leading_digits r :
  exists ds r', r = ds ++ r' /\ Forall (fun c => is_digit c = true) ds
                /\ forall c r'', r' = c :: r'' -> is_digit c = false.
Proof.
  induction r as [|c r (ds & r' & -> & Hf & Hr)].
  - exists [], []. repeat split; auto. discriminate.
  - destruct (is_digit c) eqn:Ec.
    + exists (c :: ds), r'. repeat split; auto.
    + exists [], (c :: ds ++ r'). repeat split; auto.
      intros c' r'' E. inversion E; subst. exact Ec.
Qed.

Lemma card_match_has_span p s post :
  match_at credit_card_re p (s ++ post) false = Some (length s) ->
  at_boundary p (s ++ post) = true /\ card_span s
  /\ at_boundary (after p s) post = true.
Proof.
  intros H. pose proof H as H0.
  apply match_at_sound in H0; [|reflexivity].
  destruct H0 as (s0 & post0 & E & Hl & HM).
  symmetry in E. destruct (app_same_length _ _ _ _ E Hl) as [-> ->].
  apply Mt_anchor in HM. destruct HM as (B1 & (n & Hlo & Hhi & HI) & B2).
  split; [exact B1|]. split; [|exact B2].
  replace n with (12 + (n - 12)) in HI by lia.
  apply iterM_split in HI. destruct HI as (head & r & -> & H12 & Hr).
  apply iterM_groups in H12. apply card_items_shape in Hr.
  destruct Hr as (Hcount & Hall & Hhd).
  destruct (Hhd ltac:(lia)) as (d & Hd & Dd).
  destruct (leading_digits r) as (ds & r' & -> & Hds & Hr').
  assert (Hne : ds <> []).
  { destruct ds; [|discriminate]. destruct r' as [|c r'']; [discriminate|].
    simpl in Hd. inversion Hd; subst. rewrite (Hr' d r'' eq_refl) in Dd.
    discriminate. }
  assert (Hlen : 1 <= length ds <= 4).
  { rewrite count_digits_app, (count_digits_all ds Hds) in Hcount.
    destruct ds; [congruence | simpl in *; lia]. }
  assert (Hspan : card_span (head ++ ds)).
  { exists head, ds. auto. }
  destruct r' as [|c r''].
  - rewrite app_nil_r. exact Hspan.
  - exfalso.
    assert (Hc : is_sep c = true).
    { apply Forall_app in Hall. destruct Hall as [_ Hall].
      inversion Hall as [|? ? [Hx|Hx] _]; subst; auto.
      rewrite (Hr' c r'' eq_refl) in Hx. discriminate. }
    assert (Hm : match_at credit_card_re p
                   ((head ++ ds) ++ (c :: r'') ++ post) false
                 = Some (length (head ++ ds))).
    { apply card_span_match_at; auto.
      - rewrite <- B1. f_equal. rewrite <- !app_assoc. reflexivity.
      - rewrite after_app.
        destruct (after (after p head) ds) as [z|] eqn:Ez.
        + apply after_In in Ez; auto. rewrite Forall_forall in Hds.
          unfold at_boundary. cbn [app is_word_at hd_error].
          rewrite (digit_is_word z (Hds z Ez)), (sep_not_word c Hc).
          reflexivity.
        + exfalso. destruct ds as [|d0 ds]; [congruence|]. simpl in Ez.
          clear - Ez. revert d0 Ez.
          induction ds; simpl; intros; [discriminate | eauto]. }
    replace ((head ++ ds) ++ (c :: r'') ++ post)
      with ((head ++ ds ++ c :: r'') ++ post) in Hm
      by (rewrite <- !app_assoc; reflexivity).
    rewrite H in Hm. inversion Hm as [Hl'].
    rewrite !length_app in Hl'. simpl in Hl'. lia.
Qed.

Lemma card_span_ends s :
  card_span s ->
  at_boundary None (s ++ []) = true /\ at_boundary (after None s) [] = true.
Proof.
  intros (head & tail & -> & Hg & Hf & Hl). split.
  - destruct Hg as (c & seps & rest & -> & Hc & _).
    unfold at_boundary. cbn [app is_word_at hd_error].
    rewrite (digit_is_word c Hc). reflexivity.
  - rewrite after_app. destruct (after (after None head) tail) as [z|] eqn:Ez.
    + apply after_In in Ez; [|destruct tail; [simpl in Hl; lia|discriminate]].
      rewrite Forall_forall in Hf. unfold at_boundary.
      cbn [is_word_at hd_error]. rewrite (digit_is_word z (Hf z Ez)).
      reflexivity.
    + exfalso. destruct tail as [|d0 ds]; [simpl in Hl; lia|]. simpl in Ez.
      clear - Ez. revert d0 Ez.
      induction ds; simpl; intros; [discriminate | eauto].
Qed.

Lemma card_match_starts_with_digit p c t n :
  match_at credit_card_re p (c :: t) false = Some n -> is_digit c = true.
Proof.
  intros H. apply match_at_sound in H; [|reflexivity].
  destruct H as (s & post & E & _ & HM).
  apply Mt_anchor in HM. destruct HM as (_ & Hb & _).
  apply card_body_shape in Hb. destruct Hb as (_ & _ & d & Hd & Dd).
  destruct s as [|x s]; [discriminate|].
  simpl in Hd, E. inversion Hd; inversion E; subst. exact Dd.
Qed.

Lemma scan_keeps_nondigits pre : forall p rest,
  Forall (fun c => is_digit c = false) pre ->
  scan credit_card_re p (pre ++ rest) 0
  = map Keep pre ++ scan credit_card_re (after p pre) rest 0.
Proof.
  induction pre as [|c pre IH]; intros p rest Hf; [reflexivity|].
  inversion Hf as [|? ? Hc Hf']; subst.
  cbn [app map after]. rewrite scan_0 by reflexivity.
  destruct (match_at credit_card_re p (c :: pre ++ rest) false) as [n|] eqn:E.
  - apply card_match_starts_with_digit in E. congruence.
  - rewrite IH by exact Hf'. destruct pre; reflexivity.
Qed.

Lemma card_span_scanned pre s post :
  Forall (fun c => is_digit c = false) pre -> card_span s ->
  at_boundary (after None pre) (s ++ post) = true ->
  at_boundary (after None (pre ++ s)) post = true ->
  scan credit_card_re None (pre ++ s ++ post) 0
  = map Keep pre ++ Hit s :: scan credit_card_re (after None (pre ++ s)) post 0.
Proof.
  intros Hf Hs B1 B2. rewrite scan_keeps_nondigits by exact Hf.
  rewrite after_app in B2 |- *.
  rewrite scan_0 by reflexivity.
  rewrite (card_span_match_at (after None pre) s post B1 Hs B2).
  rewrite firstn_exact, scan_skip. reflexivity.
Qed.

(** C5, as stated, fails: a span with two spaces, or with several hyphens
    and spaces, between adjacent digits is matched and replaced; and of a
    run of sixteen digits with single spaces only the first fifteen are
    replaced, because a space follows the fifteenth. *)
Lemma repeated_separators_are_matched :
  let config :=
    mkConfig "input.txt" "output.txt" (txt "<REDACTED>")
      false false false true in
  sanitize_text (txt "4111  1111 1111 1111") config = Ok (txt "<REDACTED>")
  /\ sanitize_text (txt "card 4111--1111 - 1111---1111.") config
     = Ok (txt "card <REDACTED>.")
  /\ sanitize_text (txt "4111 1111 1111 111 1") config
     = Ok (txt "<REDACTED> 1").
Proof. repeat split; vm_compute; reflexivity. Qed.

(** C5 (amended). The credit-card detector matches, at a position of the
    text, exactly the boundary-anchored spans of 13 to 16 digits that begin
    and end with a digit and have any number of spaces or hyphens (zero or
    more, not at most one) behind each of the first twelve digits and none
    behind a later one: such a span is matched, with every separator it
    holds, and nothing else is.  Every span the pass replaces is such a
    match; a text that is such a span is replaced whole; and such a span
    that stands, between word boundaries, behind a text without a digit is
    replaced by the marker, the text before it kept as it is. *)
Theorem card_detector_matches_exactly :
  (forall p s post,
      match_at credit_card_re p (s ++ post) false = Some (length s)
      <-> at_boundary p (s ++ post) = true /\ card_span s
          /\ at_boundary (after p s) post = true)
  /\ (forall text ps1 mt ps2,
         scan credit_card_re None text 0 = ps1 ++ Hit mt :: ps2 ->
         text = unscan ps1 ++ mt ++ unscan ps2
         /\ match_at credit_card_re (after None (unscan ps1))
              (mt ++ unscan ps2) false = Some (length mt))
  /\ (forall s config tm,
         card_span s ->
         remove_ssn config = false -> remove_phone config = false ->
         remove_email config = false -> remove_credit_card config = true ->
         compile_repl (redact_char config) = Ok tm ->
         sanitize_text s config = Ok (expand tm s))
  /\ (forall pre s post config tm,
         Forall (fun c => is_digit c = false) pre -> card_span s ->
         at_boundary (after None pre) (s ++ post) = true ->
         at_boundary (after None (pre ++ s)) post = true ->
         remove_ssn config = false -> remove_phone config = false ->
         remove_email config = false -> remove_credit_card config = true ->
         compile_repl (redact_char config) = Ok tm ->
         exists ps,
           scan credit_card_re None (pre ++ s ++ post) 0
           = map Keep pre ++ Hit s :: ps
           /\ unscan ps = post
           /\ sanitize_text (pre ++ s ++ post) config
              = Ok (pre ++ expand tm s ++ render tm ps)).
Proof.
  split; [|split; [|split]].
  - intros p s post. split.
    + apply card_match_has_span.
    + intros (B1 & Hs & B2). apply card_span_match_at; auto.
  - intros text ps1 mt ps2 E.
    apply (scan_hits credit_card_re eq_refl eq_refl (S (length text)))
      in E; [|lia].
    destruct E as (Et & _ & Hat). auto.
  - intros s config tm Hs H1 H2 H3 H4 Hc.
    destruct (card_span_ends s Hs) as [B1 B2].
    pose proof (card_span_match_at None s [] B1 Hs B2) as Hm.
    rewrite app_nil_r in Hm.
    unfold sanitize_text, re_sub. rewrite H1, H2, H3, H4, Hc. cbn [bind].
    rewrite scan_whole; try reflexivity; [|exact Hm].
    unfold render. simpl. rewrite app_nil_r. reflexivity.
  - intros pre s post config tm Hf Hs B1 B2 H1 H2 H3 H4 Hc.
    exists (scan credit_card_re (after None (pre ++ s)) post 0).
    pose proof (card_span_scanned pre s post Hf Hs B1 B2) as E.
    split; [exact E|]. split.
    + apply (unscan_scan credit_card_re eq_refl eq_refl (S (length post))).
      lia.
    + unfold sanitize_text, re_sub. rewrite H1, H2, H3, H4, Hc. cbn [bind].
      fold credit_card_re. rewrite E, render_app, render_keep, render_cons.
      reflexivity.
Qed.

Lemma card_detector_matches_exactly_witness :
  match_at credit_card_re (Some " "%char)
    (txt "4111  1111--1111 1111" ++ txt ".") false = Some 21.
Proof.
  apply (proj1 card_detector_matches_exactly (Some " "%char)
           (txt "4111  1111--1111 1111") (txt ".")).
  split; [reflexivity|]. split; [|reflexivity].
  exists (txt "4111  1111--1111 "), (txt "1111").
  split; [reflexivity|]. split.
  - card_group (@nil char). card_group (@nil char). card_group (@nil char).
    card_group (txt "  ").
    card_group (@nil char). card_group (@nil char). card_group (@nil char).
    card_group (txt "--").
    card_group (@nil char). card_group (@nil char). card_group (@nil char).
    card_group (txt " ").
    reflexivity.
  - split; [repeat constructor | simpl; lia].
Defined.

(** * Properties of [main] *)

Lemma validated_config fs args config :
  fst (new_SanitizeConfig fs args) = Ok config ->
  config = args /\ fs (input_file args) = true.
Proof.
  unfold new_SanitizeConfig, input_file_exists, output_file_does_not_exist.
  destruct args as [i o m s p e c]. cbn [fst snd input_file output_file
    redact_char remove_ssn remove_phone remove_email remove_credit_card].
  destruct (fs i); cbn [bind]; intros H; inversion H; auto.
Qed.

Lemma rejected_config fs args :
  fst (new_SanitizeConfig fs args) = Raise -> fs (input_file args) = false.
Proof.
  unfold new_SanitizeConfig, input_file_exists. cbn [fst].
  destruct (fs (input_file args)); cbn [bind]; [discriminate | reflexivity].
Qed.

(** The only change [main] ever makes to the files is the attempt to write
    the sanitized text of the input file to the output path, and it is made
    only when the command line was parsed: in every other run (command line
    refused or help asked for, input file missing or unreadable,
    sanitization raising) the files are left as they were. *)
Theorem main_only_writes_sanitized_text
  (W : Type) (os : os_api W) (cmd : parsed) (w : W) :
  snd (fst (main os cmd w)) = w
  \/ exists args text out,
      cmd = Parsed args
      /\ path_exists os w (input_file args) = true
      /\ read_text os w (input_file args) = Some (Some text)
      /\ sanitize_text text args = Ok out
      /\ snd (fst (main os cmd w))
         = fst (write_text os w (output_file args) out).
Proof.
  destruct cmd as [args|st|]; [|left; reflexivity|left; reflexivity].
  unfold main.
  destruct (fst (new_SanitizeConfig (path_exists os w) args))
    as [config|] eqn:Ev; [|left; reflexivity].
  apply validated_config in Ev. destruct Ev as [-> Hi].
  destruct (read_text os w (input_file args)) as [[text|]|] eqn:Er;
    try (left; reflexivity).
  destruct (sanitize_text text args) as [out|] eqn:Es; [|left; reflexivity].
  right. exists args, text, out. repeat split; auto.
  destruct (snd (write_text os w (output_file args) out)); reflexivity.
Qed.

(** [main] returns normally exactly when the command line is parsed, the
    input file exists and is read, the sanitization does not raise, and the
    write succeeds.  In every other case the process exits: with the status
    [argparse] chose when [setup_argparse] left through [SystemExit] (2 for
    a refused command line, 0 after the help text), and with status 1
    otherwise.  An output file that exists already is no obstacle. *)
Theorem main_returns_iff
  (W : Type) (os : os_api W) (cmd : parsed) (w : W) :
  (fst (fst (main os cmd w)) = Returned
   <-> exists args text out,
       cmd = Parsed args
       /\ path_exists os w (input_file args) = true
       /\ read_text os w (input_file args) = Some (Some text)
       /\ sanitize_text text args = Ok out
       /\ snd (write_text os w (output_file args) out) = true)
  /\ (forall status,
        fst (fst (main os cmd w)) = Exited status ->
        cmd = ParseExit status \/ (status = 1 /\ forall st, cmd <> ParseExit st))
  /\ (forall status,
        cmd = ParseExit status ->
        main os cmd w = (Exited status, w, [])).
Proof.
  split; [|split].
  - destruct cmd as [args|st|]; cbn [main fst];
      [|split; [discriminate | intros (a & _ & _ & H & _); discriminate]
       |split; [discriminate | intros (a & _ & _ & H & _); discriminate]].
    unfold main.
    destruct (fst (new_SanitizeConfig (path_exists os w) args))
      as [config|] eqn:Ev.
    + apply validated_config in Ev. destruct Ev as [-> Hi].
      destruct (read_text os w (input_file args)) as [[text|]|] eqn:Er.
      * destruct (sanitize_text text args) as [out|] eqn:Es.
        -- destruct (snd (write_text os w (output_file args) out)) eqn:Ew;
             cbn [fst]; split.
           ++ intros _. exists args, text, out. auto.
           ++ reflexivity.
           ++ discriminate.
           ++ intros (a & t & o & Ha & _ & Ht & Ho & Hw).
              inversion Ha; subst a. rewrite Er in Ht.
              inversion Ht; subst t. rewrite Es in Ho. inversion Ho; subst o.
              congruence.
        -- cbn [fst]. split; [discriminate|].
           intros (a & t & o & Ha & _ & Ht & Ho & _).
           inversion Ha; subst a. rewrite Er in Ht.
           inversion Ht; subst t. congruence.
      * cbn [fst]. split; [discriminate|].
        intros (a & t & o & Ha & _ & Ht & _).
        inversion Ha; subst a. congruence.
      * cbn [fst]. split; [discriminate|].
        intros (a & t & o & Ha & _ & Ht & _).
        inversion Ha; subst a. congruence.
    + apply rejected_config in Ev.
      cbn [fst]. split; [discriminate|].
      intros (a & t & o & Ha & Hi & _). inversion Ha; subst a. congruence.
  - intros status. destruct cmd as [args|st|]; cbn [main fst].
    + intros H. right. split; [|discriminate]. revert H. unfold main.
      destruct (fst (new_SanitizeConfig (path_exists os w) args))
        as [config|]; cbn [fst]; [|intros H; inversion H; reflexivity].
      destruct (read_text os w (input_file config)) as [[text|]|];
        cbn [fst]; try (intros H; inversion H; reflexivity).
      destruct (sanitize_text text config) as [out|];
        cbn [fst]; [|intros H; inversion H; reflexivity].
      destruct (snd (write_text os w (output_file config) out));
        cbn [fst]; intros H; inversion H; reflexivity.
    + intros H. inversion H. left. reflexivity.
    + intros H. inversion H. right. split; [reflexivity | discriminate].
  - intros status ->. reflexivity.
Qed.

(** The warning about an existing output file is logged exactly when the
    command line is parsed and the output path exists, and then before
    anything else is logged; a run that [argparse] ends logs nothing. *)
Theorem main_warns_iff_output_exists
  (W : Type) (os : os_api W) (cmd : parsed) (w : W) :
  (forall args,
      cmd = Parsed args ->
      path_exists os w (output_file args) = true ->
      hd_error (snd (main os cmd w))
      = Some (From_validator (Warning_output_exists (output_file args))))
  /\ (forall path,
        In (From_validator (Warning_output_exists path))
          (snd (main os cmd w)) ->
        exists args,
          cmd = Parsed args /\ path = output_file args
          /\ path_exists os w path = true).
Proof.
  destruct cmd as [args|st|].
  - assert (Hl : exists e,
               snd (main os (Parsed args) w)
               = map From_validator
                   (if path_exists os w (output_file args)
                    then [Warning_output_exists (output_file args)] else [])
                 ++ [e]
               /\ forall path,
                   e <> From_validator (Warning_output_exists path)).
    { unfold main.
      change (snd (new_SanitizeConfig (path_exists os w) args))
        with (if path_exists os w (output_file args)
              then [Warning_output_exists (output_file args)] else []).
      destruct (fst (new_SanitizeConfig (path_exists os w) args))
        as [config|];
        [|eexists; split; [reflexivity | discriminate]].
      destruct (read_text os w (input_file config)) as [[text|]|];
        try (eexists; split; [reflexivity | discriminate]).
      destruct (sanitize_text text config) as [out|];
        [|eexists; split; [reflexivity | discriminate]].
      destruct (snd (write_text os w (output_file config) out));
        eexists; split; try reflexivity; discriminate. }
    destruct Hl as (e & -> & He). split.
    + intros a Ha Ho. inversion Ha; subst a. rewrite Ho. reflexivity.
    + intros path.
      destruct (path_exists os w (output_file args)) eqn:Ho; cbn [map app].
      * intros [H|[H|[]]].
        -- inversion H; subst path. exists args. auto.
        -- destruct (He path H).
      * intros [H|[]]. destruct (He path H).
  - split; [discriminate|]. intros path [].
  - split; [discriminate|]. intros path [H|[]]. discriminate.
Qed.

Lemma main_warns_iff_output_exists_witness :
  let os := mkOs (fun (w : list (string * str)) path =>
                    existsb (fun e => String.eqb (fst e) path) w)
                 (fun w path =>
                    match find (fun e => String.eqb (fst e) path) w with
                    | Some e => Some (Some (snd e))
                    | None => Some None
                    end)
                 (fun w path text => ((path, text) :: w, true)) in
  let args := mkConfig "in.txt" "in.txt" (txt "<REDACTED>")
                true true true true in
  let w := [("in.txt"%string, txt "SSN: 123-45-6789")] in
  hd_error (snd (main os (Parsed args) w))
  = Some (From_validator (Warning_output_exists "in.txt")).
Proof.
  intros os args w.
  apply (proj1 (main_warns_iff_output_exists _ os (Parsed args) w) args);
    reflexivity.
Defined.
